(** * slick-network: peer discovery records and the socket abstraction

    A shallow embedding of the parts of [src/peer_discovery.h] and
    [src/socket.cpp] that the specification's properties talk about, and the
    proofs of those properties.

    Conventions of the embedding.
    - [size_t], [uint32_t] and [int] values are integers of [Z]; the ranges
      of [size_t] and [int] are the predicates [in_size_t] and [in_int].
    - A [double] is an IEEE 754 binary64 number ([spec_float] with 53 bits
      of precision and the exponent bound 1024); every operation rounds its
      exact result once, to nearest with ties to even.  The conversion
      [size_t -> double] rounds in the same way; the conversion
      [double -> size_t] truncates toward zero and is undefined in C++ when
      the truncated value does not fit: the model returns [None] there, and
      so does every function whose result goes through such a conversion.
    - A default argument [now = lockless::wall()] is the explicit argument
      [now], in seconds.
    - System calls are answered by the environment: the answers are
      arguments of the model, and the calls made are recorded in a log. *)

From stdpp Require Import gmap strings list sorting pretty.
From Stdlib Require Import ZArith Lia SpecFloat.

(** ** Machine types *)

Definition in_int (n : Z) : Prop := (- 2 ^ 31 <= n < 2 ^ 31)%Z.

(** ** binary64 *)

Definition double : Type := spec_float.

(** The double nearest to an integer: the value of an integer literal and
    of the conversion of an integer to [double]. *)
Definition double_of_Z (n : Z) : double := binary_normalize 53 1024 n 0 false.

Definition double_of_size_t (n : Z) : double := double_of_Z n.

(** The double nearest to [n / 2 ^ j]: a number with [j] binary digits after
    the point. *)
Definition dyadic (n j : Z) : double := binary_normalize 53 1024 n (- j) false.

Definition dadd : double -> double -> double := SFadd 53 1024.
Definition dsub : double -> double -> double := SFsub 53 1024.
Definition dmul : double -> double -> double := SFmul 53 1024.

(** [a <= b]; false when one of the two is NaN. *)
Definition dle : double -> double -> bool := SFleb.


(** The whole part of the magnitude [m * 2 ^ e]. *)
Definition trunc_mag (m : positive) (e : Z) : Z :=
  match e with
  | Z.neg k => Z.shiftr (Z.pos m) (Z.pos k)
  | _ => Z.shiftl (Z.pos m) e
  end.

(** [size_t(d)]: the fractional part is discarded; the conversion is
    undefined, [None], when the truncated value is not a [size_t], and for
    NaN and the infinities. *)
Definition size_t_of_double (d : double) : option Z :=
  match d with
  | S754_zero _ => Some 0%Z
  | S754_finite s m e =>
      let q := trunc_mag m e in
      if s then (if (q =? 0)%Z then Some 0%Z else None)
      else if (q <? 2 ^ 64)%Z then Some q else None
  | _ => None
  end.

(** The canonical form of the double that denotes [p / 2 ^ j], for [p]
    below [2 ^ 53]: the mantissa is [p] shifted to 53 binary digits. *)
Definition shl (p : positive) (j : Z) : positive :=
  match j with Z.pos k => Pos.iter xO p k | _ => p end.

Definition canon (p : positive) (j : Z) : double :=
  S754_finite false (shl p (53 - Z.pos (digits2_pos p)))
              (Z.pos (digits2_pos p) - 53 - j).

(** ** Identifiers and addresses (uuid.h, address.h) *)

Definition UUID : Type := Z.
Definition Port : Type := Z.
Definition Address : Type := (string * Port)%type.
Definition NodeAddress : Type := list Address.

(** * Ordered sets of the C++ standard library

    A [std::set<T>] with comparison [less] is the strictly increasing list of
    its elements.  Two elements are equivalent when neither is less than the
    other, and [insert] leaves the set as it is when it already holds an
    element equivalent to the new one. *)

Module StdSet.
Section Ordered.
Context {T : Type} (less : T -> T -> bool).

Definition equiv (a b : T) : bool := negb (less a b) && negb (less b a).

(** [insert(x)]: the new contents and whether the insertion took place. *)
Fixpoint insert (x : T) (s : list T) : list T * bool :=
  match s with
  | [] => ([x], true)
  | y :: r =>
      if less x y then (x :: y :: r, true)
      else if less y x then let '(r', b) := insert x r in (y :: r', b)
      else (y :: r, false)
  end.

(** The representation invariant: strictly increasing for [less]. *)
Definition wf (s : list T) : Prop :=
  StronglySorted (fun a b => less a b = true) s.

End Ordered.
End StdSet.

(** * peer_discovery.h *)

Module PeerDiscovery.

(** The anonymous enum of default settings. *)
Definition DefaultPort : Z := 18888.
Definition DefaultPeriod : Z := 1000 * 60 * 1.
Definition DefaultTTL : Z := 1000 * 60 * 60 * 8.
Definition DefaultExpThresh : Z := 1000 * 10.

Definition FetchItem : Type := (string * UUID)%type.

(** ** struct ConnState *)

Module ConnState.

Record t : Type := mk {
  fd : Z;
  id : Z;
  nodeId : UUID;
  version : Z;
  isFetch : bool;
  pendingFetch : list FetchItem
}.

(** [bool initialized() const { return version; }]: an integer converts to
    [true] exactly when it is not zero. *)
Definition initialized (c : t) : bool := negb (version c =? 0)%Z.

(** [void fetch(const std::string& key, const UUID& keyId)] *)
Definition fetch (key : string) (keyId : UUID) (c : t) : t :=
  {| fd := fd c; id := id c; nodeId := nodeId c; version := version c;
     isFetch := true;
     pendingFetch := pendingFetch c ++ [(key, keyId)] |}.

End ConnState.

(** ** struct Item *)

Module Item.

Record t : Type := mk {
  id : UUID;
  addrs : NodeAddress;
  expiration : double
}.

(** [Item() : expiration(0) {}] *)
Definition default : t :=
  {| id := 0%Z; addrs := []; expiration := double_of_Z 0 |}.



(** [Item(UUID id, NodeAddress addrs, size_t ttl, double now)] *)
Definition make (id : UUID) (addrs : NodeAddress) (ttl : Z) (now : double) : t :=
  {| id := id; addrs := addrs;
     expiration := dadd (dmul now (double_of_Z 1000)) (double_of_size_t ttl) |}.

(** [size_t ttl(double now) const]: the difference is a [double] and is
    converted to the return type. *)
Definition ttl (it : t) (now : double) : option Z :=
  if dle (expiration it) (dmul now (double_of_Z 1000)) then Some 0%Z
  else size_t_of_double (dsub (expiration it) (dmul now (double_of_Z 1000))).

(** [void setTTL(size_t ttl, double now)]: the [if] statement has the
    assignment as its body. *)
Definition setTTL (ttl' : Z) (now : double) (it : t) : option t :=
  r ← ttl it now;
  Some (if (ttl' >? r)%Z
        then {| id := id it; addrs := addrs it;
                expiration :=
                  dadd (dmul now (double_of_Z 1000)) (double_of_size_t ttl') |}
        else it).

(** [bool operator<(const Item& other) const] *)
Definition lt (a b : t) : bool := (id a <? id b)%Z.

End Item.

(** ** struct Watch

    [WatchFn] is the type of the callbacks; an empty [std::function], the
    default of the constructor's second argument, is [None]. *)

Module Watch.
Section Callbacks.
Context {WatchFn : Type}.

Record t : Type := mk {
  handle : Z;
  watch : option WatchFn
}.

(** [explicit Watch(WatchHandle handle, WatchFn watch = {})] *)
Definition make (handle : Z) (watch : option WatchFn) : t :=
  {| handle := handle; watch := watch |}.

(** [bool operator< (const Watch& other) const] *)
Definition lt (a b : t) : bool := (handle a <? handle b)%Z.

End Callbacks.
Arguments t : clear implicits.
End Watch.

(** [std::unordered_map<std::string, std::set<Watch> > watches], and the
    statement [watches[key].insert(w)] on it: [operator[]] makes an empty set
    for a key that has none. *)
Definition watches_insert {WatchFn : Type} (key : string) (w : Watch.t WatchFn)
    (watches : gmap string (list (Watch.t WatchFn)))
  : gmap string (list (Watch.t WatchFn)) :=
  <[key := fst (StdSet.insert Watch.lt w (default [] (watches !! key)))]> watches.

(** Every set of the map satisfies the representation invariant. *)
Definition watches_wf {WatchFn : Type}
    (watches : gmap string (list (Watch.t WatchFn))) : Prop :=
  forall key s, watches !! key = Some s -> StdSet.wf Watch.lt s.

(** ** struct Fetch *)

Module Fetch.

Record t : Type := mk {
  node : NodeAddress;
  delay : Z
}.

(** [explicit Fetch(NodeAddress node) : node(std::move(node)), delay(1)] *)
Definition make (node : NodeAddress) : t := {| node := node; delay := 1 |}.

End Fetch.

(** ** struct FetchExp *)

Module FetchExp.

Record t : Type := mk {
  key : string;
  keyId : UUID;
  expiration : double
}.

(** [FetchExp(std::string key, UUID keyId, size_t delay, double now)] *)
Definition make (key : string) (keyId : UUID) (delay : Z) (now : double) : t :=
  {| key := key; keyId := keyId;
     expiration :=
       dadd (dmul now (double_of_Z 1000)) (double_of_size_t delay) |}.

End FetchExp.

(** The members [fetches] and [fetchExpiration] of [PeerDiscovery]. *)
Record FetchState : Type := mkFetchState {
  fetches : gmap string (gmap UUID Fetch.t);
  fetchExpiration : list FetchExp.t
}.

(** Modelled from the spec: the scheduling of a fetch, which is part of
    peer_discovery.cpp and not among the sources.  "record [delay = 1] (in
    ticks), and enqueue expiration at [now + delay * period_]": the new
    [Fetch] is recorded under [(key, keyId)] and a [FetchExp] is appended to
    the queue.  The member [period_] is a [double] and the third argument of
    the [FetchExp] constructor is a [size_t], so the product is converted on
    the way in. *)
Definition scheduleFetch (key : string) (keyId : UUID) (node : NodeAddress)
    (period_ now : double) (st : FetchState) : option FetchState :=
  let f := Fetch.make node in
  delay ← size_t_of_double (dmul (double_of_size_t (Fetch.delay f)) period_);
  Some
    {| fetches :=
         <[key := <[keyId := f]> (default ∅ (fetches st !! key))]> (fetches st);
       fetchExpiration :=
         fetchExpiration st ++ [FetchExp.make key keyId delay now] |}.

End PeerDiscovery.

(** * socket.cpp *)

(** ** The environment of the system calls *)

(** The constants of <errno.h> and <netdb.h> that the code compares with. *)
Class Platform : Type := {
  EAGAIN : Z;
  EWOULDBLOCK : Z;
  EINPROGRESS : Z;
  EAI_SYSTEM : Z
}.

(** Their values on Linux. *)
Definition linux : Platform :=
  {| EAGAIN := 11; EWOULDBLOCK := 11; EINPROGRESS := 115; EAI_SYSTEM := -11 |}.

Definition sockaddr : Type := list Z.

Inductive Syscall : Type :=
  | sys_getaddrinfo (host : option string) (port : Port)
  | sys_socket (family type protocol : Z)
  | sys_connect (fd : Z)
  | sys_bind (fd : Z)
  | sys_listen (fd backlog : Z)
  | sys_accept4 (fd flags : Z)
  | sys_setsockopt (fd : Z)
  | sys_shutdown (fd : Z)
  | sys_close (fd : Z).

Inductive exn : Type :=
  | runtime_error (what : string)
  | logic_error (what : string)
  | errno_error (what : string) (errno : Z).

(** How a computation ends: with a value, with an exception that a caller
    may catch, or in [std::terminate], which ends the program. *)
Inductive result (A : Type) : Type :=
  | Ok (a : A)
  | Throw (e : exn)
  | Terminate.
Arguments Ok {A} a.
Arguments Throw {A} e.
Arguments Terminate {A}.

(** What a call returns and, when it fails, what it leaves in [errno]. *)
Record Answer : Type := mkAnswer {
  ret : Z;
  err : Z
}.

(** The thread's [errno] and the calls made so far, oldest first. *)
Record World : Type := mkWorld {
  errno : Z;
  log : list Syscall
}.

(** Computations that make system calls and may throw. *)
Definition M (A : Type) : Type := World -> result A * World.

#[export] Instance M_ret : MRet M := fun A a w => (Ok a, w).

#[export] Instance M_bind : MBind M := fun A B k m w =>
  match m w with
  | (Ok a, w') => k a w'
  | (Throw e, w') => (Throw e, w')
  | (Terminate, w') => (Terminate, w')
  end.

Definition throw {A : Type} (e : exn) : M A := fun w => (Throw e, w).

(** A function that is [noexcept]: an exception that leaves its body ends
    in [std::terminate].  Destructors are [noexcept] unless they are declared
    otherwise (C++11). *)
Definition noexcept {A : Type} (body : M A) : M A := fun w =>
  match body w with
  | (Throw _, w') => (Terminate, w')
  | other => other
  end.

(** A block with a local object: when an exception leaves the block, the
    stack is unwound and the destructor of the object, [cleanup], runs before
    the exception goes on to the caller. *)
Definition unwinding {A : Type} (cleanup : M unit) (body : M A) : M A := fun w =>
  match body w with
  | (Throw e, w') =>
      match cleanup w' with
      | (Ok _, w'') => (Throw e, w'')
      | (_, w'') => (Terminate, w'')
      end
  | other => other
  end.

Definition get_errno : M Z := fun w => (Ok (errno w), w).

(** A call is logged; a negative return value comes with a new [errno]. *)
Definition syscall (call : Syscall) (a : Answer) : M Z := fun w =>
  (Ok (ret a),
   {| errno := if (ret a <? 0)%Z then err a else errno w;
      log := log w ++ [call] |}).

(** Modelled from the spec: the macro [SLICK_CHECK_ERRNO] of utils.h, which
    is not among the sources.  Failures "surfaced to the caller": when the
    condition is false an exception that carries [errno] is thrown. *)
Definition SLICK_CHECK_ERRNO (pred : bool) (what : string) : M unit := fun w =>
  if pred then (Ok (), w) else (Throw (errno_error what (errno w)), w).

(** ** struct InterfaceIt

    The iterator is the list of the entries that remain.  Each entry of the
    list that [getaddrinfo] returns comes with the answers that the system
    gives to the calls made for it. *)

(** [struct addrinfo].  [ai_addr] is the socket address that the member of
    that name points to; [ai_addr_member] is the memory of the entry from
    the member itself on, over the size of a [Socket]'s [addr]: the bytes of
    the pointer and of what follows it. *)
Record addrinfo : Type := mkAddrinfo {
  ai_family : Z;
  ai_socktype : Z;
  ai_protocol : Z;
  ai_addr : sockaddr;
  ai_addrlen : Z;
  ai_addr_member : sockaddr
}.

Record Interface : Type := mkInterface {
  ai : addrinfo;
  socket_ans : Answer;
  connect_ans : Answer;
  bind_ans : Answer;
  listen_ans : Answer
}.

Record GaiAnswer : Type := mkGaiAnswer {
  gai_ret : Z;
  gai_errno : Z;
  gai_list : list Interface
}.

Section InterfaceIt.
Context {platform : Platform}.

(** [InterfaceIt(const char* host, Port port)]; [host] is [None] for
    [nullptr].  [assert(!host || port)] is a precondition. *)
Definition InterfaceIt (host : option string) (port : Port) (gai : GaiAnswer)
  : M (list Interface) :=
  r ← (fun w =>
         (Ok (gai_ret gai),
          {| errno := if (gai_ret gai =? EAI_SYSTEM)%Z then gai_errno gai
                      else errno w;
             log := log w ++ [sys_getaddrinfo host port] |}));
  if negb (r =? 0)%Z then
    SLICK_CHECK_ERRNO (negb (r =? EAI_SYSTEM)%Z) "InterfaceIt.getaddrinfo";;
    throw (logic_error ("error: " +:+ pretty r))
  else mret (gai_list gai).

End InterfaceIt.

(** ** struct Socket

    The members [addr] and [addrlen] hold indeterminate values until they
    are written; the model starts them at [[]] and [0]. *)

Module Socket.

Record t : Type := mk {
  fd_ : Z;
  addr : sockaddr;
  addrlen : Z
}.

Definition set_fd_ (fd : Z) (s : t) : t :=
  {| fd_ := fd; addr := addr s; addrlen := addrlen s |}.
Definition set_addr (a : sockaddr) (s : t) : t :=
  {| fd_ := fd_ s; addr := a; addrlen := addrlen s |}.
Definition set_addrlen (n : Z) (s : t) : t :=
  {| fd_ := fd_ s; addr := addr s; addrlen := n |}.

Section Members.
Context {platform : Platform}.

(** [void Socket::init()] *)
Definition init (s : t) (setsockopt_ans : Answer) : M unit :=
  r ← syscall (sys_setsockopt (fd_ s)) setsockopt_ans;
  SLICK_CHECK_ERRNO (r =? 0)%Z "Socket.setsockopt.TCP_NODELAY".

(** The loop of the connecting constructor; it returns at [break] and at
    the end of the list.  [FdGuard] (utils.h) looks after a descriptor whose
    iteration is abandoned; that clean-up is not part of the model.
    [std::memcpy(&addr, &it->ai_addr, sizeof addr)] copies from the address
    of the member [ai_addr], not from the address the member holds. *)
Fixpoint connect_loop (flags : Z) (its : list Interface) (s : t) : M t :=
  match its with
  | [] => mret s
  | it :: rest =>
      fd ← syscall (sys_socket (ai_family (ai it))
                      (Z.lor (ai_socktype (ai it)) flags)
                      (ai_protocol (ai it))) (socket_ans it);
      if (fd <? 0)%Z then connect_loop flags rest s
      else
        r ← syscall (sys_connect fd) (connect_ans it);
        e ← get_errno;
        if (r <? 0)%Z && negb (e =? EINPROGRESS)%Z
        then connect_loop flags rest s
        else mret {| fd_ := fd; addr := ai_addr_member (ai it);
                     addrlen := ai_addrlen (ai it) |}
  end.

(** [Socket(const std::string& host, PortRange ports, int flags)];
    [assert(!host.empty())] is a precondition.  When the constructor throws
    no object has been made, and no destructor runs for it. *)
Definition make (host : string) (ports : Port * Port) (flags : Z)
    (gai : GaiAnswer) (setsockopt_ans : Answer) : M t :=
  its ← InterfaceIt (Some host) (fst ports) gai;
  s ← connect_loop flags its {| fd_ := -1; addr := []; addrlen := 0 |};
  if (fd_ s <? 0)%Z then throw (runtime_error "ERROR: no valid interface")
  else init s setsockopt_ans;; mret s.

(** [Socket::~Socket()]; the destructor is not declared [noexcept(false)],
    so a check that fails in it ends the program. *)
Definition dtor (s : t) (shutdown_ans close_ans : Answer) : M unit :=
  noexcept
    (if (fd_ s <? 0)%Z then mret ()
     else
       r ← syscall (sys_shutdown (fd_ s)) shutdown_ans;
       SLICK_CHECK_ERRNO (r =? 0)%Z "Socket.shutdown";;
       r ← syscall (sys_close (fd_ s)) close_ans;
       SLICK_CHECK_ERRNO (r =? 0)%Z "Socket.close").

(** What [accept4] answers: its return value and [errno], and the contents
    of the address buffer and of its length after the call.  The last two
    fields are the answers to the calls that the destructor of the local
    [socket] makes when an exception unwinds the stack. *)
Record AcceptAnswer : Type := mkAcceptAnswer {
  accept4_ans : Answer;
  peer_addr : sockaddr;
  peer_addrlen : Z;
  unwind_shutdown_ans : Answer;
  unwind_close_ans : Answer
}.

(** [Socket Socket::accept(int fd, int flags)].  [return std::move(socket)]
    leaves the local [socket] without a descriptor, and its destructor then
    makes no call; when the check or [init] throws, the local [socket] is
    destroyed as it is. *)
Definition accept (fd flags : Z) (a : AcceptAnswer) (setsockopt_ans : Answer)
  : M t :=
  r ← syscall (sys_accept4 fd flags) (accept4_ans a);
  let socket := {| fd_ := r; addr := peer_addr a; addrlen := peer_addrlen a |} in
  e ← get_errno;
  if (r <? 0)%Z && ((e =? EAGAIN)%Z || (e =? EWOULDBLOCK)%Z) then mret socket
  else
    unwinding (dtor socket (unwind_shutdown_ans a) (unwind_close_ans a))
      (SLICK_CHECK_ERRNO (0 <=? r)%Z "Socket.accept";;
       init socket setsockopt_ans);;
    mret socket.

End Members.
End Socket.

(** ** struct PassiveSockets *)

Module PassiveSockets.

Record t : Type := mk {
  fds_ : list Z
}.

Section Members.
Context {platform : Platform}.

(** The loop of the constructor, with the descriptors collected so far. *)
Fixpoint listen_loop (flags : Z) (its : list Interface) (fds : list Z)
  : M (list Z) :=
  match its with
  | [] => mret fds
  | it :: rest =>
      fd ← syscall (sys_socket (ai_family (ai it))
                      (Z.lor (ai_socktype (ai it)) flags)
                      (ai_protocol (ai it))) (socket_ans it);
      if (fd <? 0)%Z then listen_loop flags rest fds
      else
        r ← syscall (sys_bind fd) (bind_ans it);
        if (r <? 0)%Z then listen_loop flags rest fds
        else
          r ← syscall (sys_listen fd (Z.shiftl 1 8)) (listen_ans it);
          if (r <? 0)%Z then listen_loop flags rest fds
          else listen_loop flags rest (fds ++ [fd])
  end.

(** [PassiveSockets(PortRange ports, int flags)] *)
Definition make (ports : Port * Port) (flags : Z) (gai : GaiAnswer) : M t :=
  its ← InterfaceIt None (fst ports) gai;
  fds ← listen_loop flags its [];
  if bool_decide (fds = [])
  then throw (runtime_error "ERROR: no valid interface")
  else mret {| fds_ := fds |}.

(** The loop of the destructor; [close_ans i] is the answer to the call
    number [i], and the value that [close] returns is not looked at. *)
Fixpoint close_all (fds : list Z) (close_ans : nat -> Answer) : M unit :=
  match fds with
  | [] => mret ()
  | fd :: rest =>
      _ ← syscall (sys_close fd) (close_ans 0%nat);
      close_all rest (fun i => close_ans (S i))
  end.

(** [PassiveSockets::~PassiveSockets()] *)
Definition dtor (p : t) (close_ans : nat -> Answer) : M unit :=
  close_all (fds_ p) close_ans.

End Members.
End PassiveSockets.

(** ** Interfaces that cannot be used *)

Section Unusable.
Context {platform : Platform}.

(** An interface on which a passive socket cannot be set up, and one to
    which no connection can be made. *)
Definition cannot_listen (it : Interface) : Prop :=
  (ret (socket_ans it) < 0 \/ ret (bind_ans it) < 0 \/ ret (listen_ans it) < 0)%Z.

Definition cannot_connect (it : Interface) : Prop :=
  (ret (socket_ans it) < 0 \/
   (ret (connect_ans it) < 0 /\ err (connect_ans it) <> EINPROGRESS))%Z.

(** The descriptors of the interfaces on which all three calls succeed. *)
Definition listening (its : list Interface) : list Z :=
  omap (fun it =>
          if (ret (socket_ans it) <? 0)%Z || (ret (bind_ans it) <? 0)%Z
             || (ret (listen_ans it) <? 0)%Z
          then None else Some (ret (socket_ans it))) its.

(** The calls that the loop of the [PassiveSockets] constructor makes for
    one interface. *)
Definition listen_calls (flags : Z) (it : Interface) : list Syscall :=
  sys_socket (ai_family (ai it)) (Z.lor (ai_socktype (ai it)) flags)
             (ai_protocol (ai it)) ::
  (if (ret (socket_ans it) <? 0)%Z then []
   else sys_bind (ret (socket_ans it)) ::
        (if (ret (bind_ans it) <? 0)%Z then []
         else [sys_listen (ret (socket_ans it)) 256])).

(** The descriptors that [socket] returns for the interfaces, and those of
    them that [bind] accepts. *)
Definition made (its : list Interface) : list Z :=
  omap (fun it => if (ret (socket_ans it) <? 0)%Z then None
                  else Some (ret (socket_ans it))) its.

Definition bound (its : list Interface) : list Z :=
  omap (fun it =>
          if (ret (socket_ans it) <? 0)%Z || (ret (bind_ans it) <? 0)%Z
          then None else Some (ret (socket_ans it))) its.

(** The calls of [socket], [bind] and [listen] in a log. *)
Definition sockets (l : list Syscall) : list (Z * Z * Z) :=
  omap (fun c => match c with
                 | sys_socket family type protocol => Some (family, type, protocol)
                 | _ => None
                 end) l.

Definition binds (l : list Syscall) : list Z :=
  omap (fun c => match c with sys_bind fd => Some fd | _ => None end) l.

Definition listens (l : list Syscall) : list (Z * Z) :=
  omap (fun c => match c with
                 | sys_listen fd backlog => Some (fd, backlog)
                 | _ => None
                 end) l.

(** An interface to which a connection is made or is in progress. *)
Definition can_connect (it : Interface) : Prop :=
  (0 <= ret (socket_ans it) /\
   (0 <= ret (connect_ans it) \/ err (connect_ans it) = EINPROGRESS))%Z.

End Unusable.

(** ** Socket objects, their moves and their destruction

    The objects of a program are the entries of a store.  An entry is [None]
    once the lifetime of its object has ended.  A member function reads and
    writes the store one statement at a time, so that [this] and [other] may
    be the same object. *)

Module Store.

Abbreviation t := (list (option Socket.t)).

(** The object at [i], while it is alive. *)
Definition live (h : t) (i : nat) : option Socket.t := mjoin (h !! i).

Definition write (i : nat) (f : Socket.t -> Socket.t) (h : t) : t :=
  alter (fmap f) i h.

(** [Socket(Socket&& other)]: the new object is the entry added at the end. *)
Definition move_ctor (other : nat) (h : t) : option t :=
  o ← live h other;
  let h := h ++ [Some {| Socket.fd_ := Socket.fd_ o;
                         Socket.addr := Socket.addr o;
                         Socket.addrlen := Socket.addrlen o |}] in
  Some (write other (Socket.set_fd_ (-1)) h).

(** [Socket& operator=(Socket&& other)] *)
Definition move_assign (this other : nat) (h : t) : option t :=
  _ ← live h this;
  o ← live h other;
  let h := write this (Socket.set_fd_ (Socket.fd_ o)) h in
  let h := write other (Socket.set_fd_ (-1)) h in
  o ← live h other;
  let h := write this (Socket.set_addr (Socket.addr o)) h in
  o ← live h other;
  let h := write this (Socket.set_addrlen (Socket.addrlen o)) h in
  Some h.

(** A program over the store: moves and ends of lifetime.  The answers of
    the system to the calls of a destructor come with the operation. *)
Inductive Op : Type :=
  | MoveConstruct (other : nat)
  | MoveAssign (this other : nat)
  | Destroy (obj : nat) (shutdown_ans close_ans : Answer).

Inductive Outcome : Type :=
  | Next (h : t) (w : World)
  | Halt (w : World).

(** One operation.  The program halts when the operation names an object
    that is not alive, and when a destructor ends it. *)
Definition step (op : Op) (h : t) (w : World) : Outcome :=
  match op with
  | MoveConstruct other =>
      match move_ctor other h with
      | Some h' => Next h' w
      | None => Halt w
      end
  | MoveAssign this other =>
      match move_assign this other h with
      | Some h' => Next h' w
      | None => Halt w
      end
  | Destroy obj shutdown_ans close_ans =>
      match live h obj with
      | Some s =>
          match Socket.dtor s shutdown_ans close_ans w with
          | (Ok _, w') => Next (<[obj := None]> h) w'
          | (_, w') => Halt w'
          end
      | None => Halt w
      end
  end.

(** The world at the end of a program. *)
Fixpoint run (ops : list Op) (h : t) (w : World) : World :=
  match ops with
  | [] => w
  | op :: rest =>
      match step op h w with
      | Next h' w' => run rest h' w'
      | Halt w' => w'
      end
  end.

(** The descriptor of the object at [i], while it is alive. *)
Definition fd_at (h : t) (i : nat) : option Z := Socket.fd_ <$> live h i.

(** No descriptor is held by two live objects. *)
Definition exclusive (h : t) : Prop :=
  forall (i j : nat) (fd : Z),
    fd_at h i = Some fd -> fd_at h j = Some fd -> (0 <= fd)%Z -> i = j.

(** The descriptors that the logged calls have closed and shut down. *)
Definition closed (l : list Syscall) : list Z :=
  omap (fun c => match c with sys_close fd => Some fd | _ => None end) l.

Definition shut_down (l : list Syscall) : list Z :=
  omap (fun c => match c with sys_shutdown fd => Some fd | _ => None end) l.

(** The state of the descriptors: no descriptor is held twice, no
    descriptor was closed or shut down twice, and no descriptor that is
    held was closed or shut down. *)
Definition closed_once (w : World) : Prop :=
  NoDup (closed (log w)) /\ NoDup (shut_down (log w)).

Definition consistent (h : t) (w : World) : Prop :=
  exclusive h /\ closed_once w /\
  forall j fd, fd_at h j = Some fd -> (0 <= fd)%Z ->
    (fd ∉ closed (log w)) /\ (fd ∉ shut_down (log w)).

(** A descriptor that some live object of the store holds. *)
Definition held (h : t) (fd : Z) : Prop :=
  exists j, fd_at h j = Some fd /\ (0 <= fd)%Z.

End Store.

(** ** Sample environments *)

Local Open Scope Z_scope.

Definition loopback : addrinfo :=
  {| ai_family := 2; ai_socktype := 1; ai_protocol := 6;
     ai_addr := [127; 0; 0; 1]; ai_addrlen := 16;
     ai_addr_member := [96; 212; 85; 0] |}.

(** The port is taken and nobody listens on the other side. *)
Definition busy : Interface :=
  {| ai := loopback;
     socket_ans := mkAnswer 3 0;
     connect_ans := mkAnswer (-1) 111;
     bind_ans := mkAnswer (-1) 98;
     listen_ans := mkAnswer 0 0 |}.

(** Every call succeeds and the descriptor is 4. *)
Definition free : Interface :=
  {| ai := loopback;
     socket_ans := mkAnswer 4 0;
     connect_ans := mkAnswer 0 0;
     bind_ans := mkAnswer 0 0;
     listen_ans := mkAnswer 0 0 |}.

Definition quiet : World := {| errno := 0; log := [] |}.

(** Times in seconds: 0.5 s and 0.125 s; 13 November 2023,
    22:13:20.1234567 UTC; and 7 September 2039, 15:29:51.358474 UTC. *)
Definition half_second : double := S754_finite false 4503599627370496 (-53).
Definition eighth_second : double := S754_finite false 4503599627370496 (-55).
Definition november_2023 : double := S754_finite false 7130316800517815 (-22).
Definition september_2039 : double := S754_finite false 4611643521333406 (-21).

(** No connection is pending on the listening socket. *)
Definition nobody : Socket.AcceptAnswer :=
  {| Socket.accept4_ans := mkAnswer (-1) 11;
     Socket.peer_addr := []; Socket.peer_addrlen := 0;
     Socket.unwind_shutdown_ans := mkAnswer 0 0;
     Socket.unwind_close_ans := mkAnswer 0 0 |}.

(** A connection from 127.0.0.1 is pending; it gets the descriptor 7. *)
Definition somebody : Socket.AcceptAnswer :=
  {| Socket.accept4_ans := mkAnswer 7 0;
     Socket.peer_addr := [127; 0; 0; 1]; Socket.peer_addrlen := 16;
     Socket.unwind_shutdown_ans := mkAnswer 0 0;
     Socket.unwind_close_ans := mkAnswer 0 0 |}.

(** One socket with descriptor 5: it is moved into a new object, moved back,
    and both objects are destroyed. *)
Definition one_socket : list (option Socket.t) :=
  [Some {| Socket.fd_ := 5; Socket.addr := [127; 0; 0; 1]; Socket.addrlen := 16 |}].

(** Two sockets, with the descriptors 5 and 6. *)
Definition two_sockets : list (option Socket.t) :=
  [Some {| Socket.fd_ := 5; Socket.addr := [127; 0; 0; 1]; Socket.addrlen := 16 |};
   Some {| Socket.fd_ := 6; Socket.addr := [127; 0; 0; 2]; Socket.addrlen := 16 |}].

Definition there_and_back : list Store.Op :=
  [Store.MoveConstruct 0; Store.MoveAssign 0 1;
   Store.Destroy 1 (mkAnswer 0 0) (mkAnswer 0 0);
   Store.Destroy 0 (mkAnswer 0 0) (mkAnswer 0 0)].

(** * Properties *)

(** ** binary64 on numbers of at most 53 binary digits

    Additions, subtractions and comparisons of numbers [n / 2 ^ j] with a
    common [j] are exact while the numerators stay below [2 ^ 53], and so
    are their conversions to integers. *)

Section Binary64.
Local Open Scope Z_scope.

Lemma digits2_pos_bounds p :
  2 ^ (Z.pos (digits2_pos p) - 1) <= Z.pos p < 2 ^ Z.pos (digits2_pos p).
Proof.
  induction p as [p IH|p IH|]; cbn [digits2_pos].
  - rewrite Pos2Z.inj_succ. replace (Z.succ (Z.pos (digits2_pos p)) - 1)
      with (Z.succ (Z.pos (digits2_pos p) - 1)) by lia.
    rewrite !Z.pow_succ_r by lia. lia.
  - rewrite Pos2Z.inj_succ. replace (Z.succ (Z.pos (digits2_pos p)) - 1)
      with (Z.succ (Z.pos (digits2_pos p) - 1)) by lia.
    rewrite !Z.pow_succ_r by lia. lia.
  - simpl. lia.
Qed.

Lemma digits2_pos_le_53 p : Z.pos p < 2 ^ 53 -> Z.pos (digits2_pos p) <= 53.
Proof.
  intros H. pose proof (digits2_pos_bounds p) as [Hlo _].
  destruct (Z.le_gt_cases (Z.pos (digits2_pos p)) 53) as [|Hgt]; [assumption|].
  exfalso. assert (2 ^ 53 <= 2 ^ (Z.pos (digits2_pos p) - 1))
    by (apply Z.pow_le_mono_r; lia). lia.
Qed.

Lemma shl_spec p j : 0 <= j -> Z.pos (shl p j) = Z.pos p * 2 ^ j.
Proof.
  intros Hj. destruct j as [|k|k]; [simpl; lia | | lia]. cbn [shl].
  induction k as [|k IH] using Pos.peano_ind.
  - simpl. lia.
  - rewrite Pos.iter_succ, Pos2Z.inj_xO, IH, Pos2Z.inj_succ, Z.pow_succ_r by lia.
    lia.
Qed.

Lemma shl_digits p j :
  0 <= j -> Z.pos (digits2_pos (shl p j)) = Z.pos (digits2_pos p) + j.
Proof.
  intros Hj. destruct j as [|k|k]; [simpl; lia | | lia]. cbn [shl].
  induction k as [|k IH] using Pos.peano_ind.
  - simpl. lia.
  - rewrite Pos.iter_succ. cbn [digits2_pos]. lia.
Qed.

Lemma shl_shl p a b : 0 <= a -> 0 <= b -> shl (shl p a) b = shl p (a + b).
Proof.
  intros Ha Hb. apply Pos2Z.inj. rewrite !shl_spec by lia.
  rewrite Z.pow_add_r by lia. lia.
Qed.

Lemma shr_exact k m :
  iter_pos shr_1 k {| shr_m := Z.pos (Pos.iter xO m k); shr_r := false;
                      shr_s := false |} =
  {| shr_m := Z.pos m; shr_r := false; shr_s := false |}.
Proof.
  revert m. induction k as [k IH|k IH|]; intros m; cbn [iter_pos Pos.iter].
  - cbn [shr_1 orb]. now rewrite !IH.
  - now rewrite !IH.
  - reflexivity.
Qed.

Lemma fexp_normal e : -1021 <= e -> fexp 53 1024 e = e - 53.
Proof. intros H. unfold fexp, emin. lia. Qed.

Lemma binary_round_aux_normal s m e :
  Z.pos (digits2_pos m) = 53 -> -1074 <= e <= 971 ->
  binary_round_aux 53 1024 s (Z.pos m) e loc_Exact = S754_finite s m e.
Proof.
  intros Hd He.
  assert (Hshift : shr_fexp 53 1024 (Z.pos m) e loc_Exact =
                   ({| shr_m := Z.pos m; shr_r := false; shr_s := false |}, e)).
  { unfold shr_fexp. cbn [Zdigits2 shr_record_of_loc]. rewrite Hd.
    rewrite fexp_normal by lia. replace (53 + e - 53 - e) with 0 by lia.
    reflexivity. }
  unfold binary_round_aux. rewrite Hshift.
  cbn [shr_m loc_of_shr_record round_nearest_even]. rewrite Hshift.
  cbn [shr_m]. destruct (Z.leb_spec e (1024 - 53)); [reflexivity | lia].
Qed.

(** Rounding is exact on a number of at most 53 binary digits, whatever the
    number of zeros that follow them. *)
Lemma binary_round_scaled s p e k :
  Z.pos p < 2 ^ 53 -> 0 <= k ->
  -1021 <= Z.pos (digits2_pos p) + e <= 1024 ->
  binary_round 53 1024 s (shl p k) (e - k) =
  S754_finite s (shl p (53 - Z.pos (digits2_pos p)))
              (Z.pos (digits2_pos p) - 53 + e).
Proof.
  intros Hp Hk He. pose proof (digits2_pos_le_53 p Hp) as Hd.
  set (d := Z.pos (digits2_pos p)) in *.
  assert (Hd1 : 1 <= d) by (unfold d; lia).
  unfold binary_round. rewrite shl_digits by lia. fold d.
  rewrite fexp_normal by lia. unfold shl_align.
  destruct (d + k + (e - k) - 53 - (e - k)) as [|q|q] eqn:E.
  - assert (Hkd : k = 53 - d) by lia. rewrite Hkd.
    replace (e - (53 - d)) with (d - 53 + e) by lia.
    apply binary_round_aux_normal; [rewrite shl_digits by lia; fold d; lia | lia].
  - assert (Hq : Z.pos q = d + k - 53) by lia.
    assert (Hm : shl p k = Pos.iter xO (shl p (53 - d)) q).
    { change (Pos.iter xO (shl p (53 - d)) q) with (shl (shl p (53 - d)) (Z.pos q)).
      rewrite shl_shl by lia. f_equal. lia. }
    unfold binary_round_aux, shr_fexp. cbn [Zdigits2 shr_record_of_loc].
    rewrite (shl_digits p k) by lia. fold d. rewrite fexp_normal by lia.
    replace (d + k + (e - k) - 53 - (e - k)) with (Z.pos q) by lia.
    assert (Hshr : iter_pos shr_1 q {| shr_m := Z.pos (shl p k); shr_r := false;
                                       shr_s := false |} =
                   {| shr_m := Z.pos (shl p (53 - d)); shr_r := false;
                      shr_s := false |})
      by (rewrite Hm; apply shr_exact).
    cbn [shr]. rewrite !Hshr.
    cbn [shr_m loc_of_shr_record round_nearest_even Zdigits2 shr_record_of_loc].
    rewrite (shl_digits p (53 - d)) by lia. fold d. rewrite fexp_normal by lia.
    replace (d + (53 - d) + (e - k + Z.pos q) - 53 - (e - k + Z.pos q)) with 0 by lia.
    cbn [shr shr_m].
    destruct (Z.leb_spec (e - k + Z.pos q) (1024 - 53)); [|lia].
    f_equal. lia.
  - assert (Hq : Z.pos q = 53 - d - k) by lia.
    change (Pos.iter xO (shl p k) q) with (shl (shl p k) (Z.pos q)).
    rewrite shl_shl by lia. replace (k + Z.pos q) with (53 - d) by lia.
    replace (d + k + (e - k) - 53) with (d - 53 + e) by lia.
    apply binary_round_aux_normal; [rewrite shl_digits by lia; fold d; lia | lia].
Qed.

Lemma dyadic_pos p j :
  Z.pos p < 2 ^ 53 -> 0 <= j <= 1022 -> dyadic (Z.pos p) j = canon p j.
Proof.
  intros Hp Hj. unfold dyadic, canon. cbn [binary_normalize].
  pose proof (digits2_pos_le_53 p Hp).
  replace (Z.pos (digits2_pos p) - 53 - j)
    with (Z.pos (digits2_pos p) - 53 + - j) by lia.
  replace (- j) with (- j - 0) at 1 by lia.
  apply (binary_round_scaled false p (- j) 0); lia.
Qed.

Lemma dyadic_0 j : dyadic 0 j = S754_zero false.
Proof. reflexivity. Qed.

Lemma double_of_Z_dyadic n : double_of_Z n = dyadic n 0.
Proof. reflexivity. Qed.

(** Zeros at the end of the numerator go into the exponent. *)
Lemma binary_normalize_scaled n j k :
  0 <= n < 2 ^ 53 -> 0 <= j <= 1022 -> 0 <= k ->
  binary_normalize 53 1024 (n * 2 ^ k) (- j - k) false = dyadic n j.
Proof.
  intros Hn Hj Hk. destruct n as [|p|p]; try lia; [reflexivity|].
  rewrite dyadic_pos by lia. rewrite <- shl_spec by lia.
  cbn [binary_normalize]. unfold canon.
  pose proof (digits2_pos_le_53 p ltac:(lia)).
  replace (Z.pos (digits2_pos p) - 53 - j)
    with (Z.pos (digits2_pos p) - 53 + - j) by lia.
  apply binary_round_scaled; lia.
Qed.

(** A number of the grid [2 ^ - j] is a number of every finer grid. *)
Lemma dyadic_finer n j k :
  0 <= n -> n * 2 ^ k < 2 ^ 53 -> 0 <= j -> 0 <= k -> j + k <= 1022 ->
  dyadic n j = dyadic (n * 2 ^ k) (j + k).
Proof.
  intros Hn Hlt Hj Hk Hjk.
  assert (Hpow : 1 <= 2 ^ k) by (pose proof (Z.pow_pos_nonneg 2 k); lia).
  assert (Hn53 : n < 2 ^ 53) by nia.
  destruct n as [|p|p]; try lia; [reflexivity|].
  rewrite (dyadic_pos p j) by lia.
  rewrite <- shl_spec by lia.
  rewrite dyadic_pos by (rewrite ?shl_spec; lia).
  unfold canon. rewrite shl_digits, shl_shl by
    (pose proof (digits2_pos_le_53 (shl p k)); rewrite ?shl_digits, ?shl_spec in *; lia).
  f_equal; [f_equal|]; lia.
Qed.

Lemma shl_align_fst m e e' :
  e' <= e -> Z.pos (fst (shl_align m e e')) = Z.pos m * 2 ^ (e - e').
Proof.
  intros He. unfold shl_align. destruct (e' - e) as [|k|k] eqn:E; try lia.
  - replace (e - e') with 0 by lia. simpl. lia.
  - cbn [fst]. change (Pos.iter xO m k) with (shl m (Z.pos k)).
    rewrite shl_spec by lia. f_equal. f_equal. lia.
Qed.

(** The mantissa and exponent of [canon p j] carry the value [p / 2 ^ j]. *)
Lemma canon_value p j :
  Z.pos p < 2 ^ 53 ->
  forall ez, ez <= Z.pos (digits2_pos p) - 53 - j ->
  Z.pos (fst (shl_align (shl p (53 - Z.pos (digits2_pos p)))
                (Z.pos (digits2_pos p) - 53 - j) ez)) =
  Z.pos p * 2 ^ (- j - ez).
Proof.
  intros Hp ez Hez. pose proof (digits2_pos_le_53 p Hp) as Hd.
  rewrite shl_align_fst by lia. rewrite shl_spec by lia.
  rewrite <- Z.mul_assoc, <- Z.pow_add_r by lia. f_equal. f_equal. lia.
Qed.

Lemma dadd_exact j a b :
  0 <= j <= 1022 -> 0 <= a -> 0 <= b -> a + b < 2 ^ 53 ->
  dadd (dyadic a j) (dyadic b j) = dyadic (a + b) j.
Proof.
  intros Hj Ha Hb Hab.
  destruct a as [|pa|pa]; [|clear Ha|lia].
  { destruct b as [|pb|pb]; [reflexivity| |lia].
    change (0 + Z.pos pb) with (Z.pos pb).
    rewrite dyadic_pos by lia. reflexivity. }
  destruct b as [|pb|pb]; [|clear Hb|lia].
  { rewrite Z.add_0_r, dyadic_pos by lia. reflexivity. }
  rewrite (dyadic_pos pa), (dyadic_pos pb) by lia.
  unfold canon, dadd, SFadd. cbn [cond_Zopp].
  pose proof (digits2_pos_le_53 pa ltac:(lia)).
  pose proof (digits2_pos_le_53 pb ltac:(lia)).
  set (ez := Z.min _ _).
  rewrite !canon_value by (unfold ez; lia).
  rewrite <- Z.mul_add_distr_r.
  pose proof (binary_normalize_scaled (Z.pos pa + Z.pos pb) j (- j - ez)) as Hn.
  replace (- j - (- j - ez)) with ez in Hn by lia.
  apply Hn; unfold ez; lia.
Qed.

Lemma dsub_exact j a b :
  0 <= j <= 1022 -> 0 <= b -> b < a -> a < 2 ^ 53 ->
  dsub (dyadic a j) (dyadic b j) = dyadic (a - b) j.
Proof.
  intros Hj Hb Hab Ha.
  destruct a as [|pa|pa]; try lia.
  destruct b as [|pb|pb]; [|clear Hb|lia].
  { rewrite Z.sub_0_r, dyadic_pos by lia. reflexivity. }
  rewrite (dyadic_pos pa), (dyadic_pos pb) by lia.
  unfold canon, dsub, SFsub. cbn [cond_Zopp].
  pose proof (digits2_pos_le_53 pa ltac:(lia)).
  pose proof (digits2_pos_le_53 pb ltac:(lia)).
  set (ez := Z.min _ _).
  rewrite !canon_value by (unfold ez; lia).
  rewrite <- Z.mul_sub_distr_r.
  pose proof (binary_normalize_scaled (Z.pos pa - Z.pos pb) j (- j - ez)) as Hn.
  replace (- j - (- j - ez)) with ez in Hn by lia.
  apply Hn; unfold ez; lia.
Qed.

Lemma dle_exact j a b :
  0 <= j <= 1022 -> 0 <= a < 2 ^ 53 -> 0 <= b < 2 ^ 53 ->
  dle (dyadic a j) (dyadic b j) = (a <=? b).
Proof.
  intros Hj Ha Hb.
  destruct a as [|pa|pa]; [| |lia]; destruct b as [|pb|pb]; try lia.
  - reflexivity.
  - rewrite dyadic_pos by lia. reflexivity.
  - rewrite dyadic_pos by lia. reflexivity.
  - rewrite (dyadic_pos pa), (dyadic_pos pb) by lia.
    pose proof (digits2_pos_le_53 pa ltac:(lia)) as Hda.
    pose proof (digits2_pos_le_53 pb ltac:(lia)) as Hdb.
    pose proof (digits2_pos_bounds pa) as [Hla Hua].
    pose proof (digits2_pos_bounds pb) as [Hlb Hub].
    unfold canon, dle, SFleb, SFcompare.
    set (da := Z.pos (digits2_pos pa)) in *.
    set (db := Z.pos (digits2_pos pb)) in *.
    destruct (Z.compare_spec (da - 53 - j) (db - 53 - j)) as [E|E|E].
    + assert (da = db) by lia.
      change (Pos.compare_cont Eq ?x ?y) with (Pos.compare x y).
      rewrite Pos2Z.inj_compare, !shl_spec by lia.
      replace (53 - db) with (53 - da) by lia.
      assert (Hpow : 0 < 2 ^ (53 - da)) by (apply Z.pow_pos_nonneg; lia).
      destruct (Z.compare_spec (Z.pos pa * 2 ^ (53 - da))
                               (Z.pos pb * 2 ^ (53 - da))) as [C|C|C];
        destruct (Z.leb_spec (Z.pos pa) (Z.pos pb)); try reflexivity; nia.
    + assert (2 ^ da <= 2 ^ (db - 1)) by (apply Z.pow_le_mono_r; lia).
      destruct (Z.leb_spec (Z.pos pa) (Z.pos pb)); [reflexivity | lia].
    + assert (2 ^ db <= 2 ^ (da - 1)) by (apply Z.pow_le_mono_r; lia).
      destruct (Z.leb_spec (Z.pos pa) (Z.pos pb)); [lia | reflexivity].
Qed.

(** The conversion to [size_t] drops the fractional binary digits. *)
Lemma size_t_of_dyadic n j :
  0 <= j <= 1022 -> 0 <= n < 2 ^ 53 ->
  size_t_of_double (dyadic n j) = Some (n / 2 ^ j).
Proof.
  intros Hj Hn. destruct n as [|p|p]; [reflexivity| |lia].
  rewrite dyadic_pos by lia. unfold canon, size_t_of_double.
  pose proof (digits2_pos_le_53 p ltac:(lia)) as Hd.
  set (d := Z.pos (digits2_pos p)) in *.
  assert (Hpj : 0 < 2 ^ j) by (apply Z.pow_pos_nonneg; lia).
  assert (Hq : trunc_mag (shl p (53 - d)) (d - 53 - j) = Z.pos p / 2 ^ j).
  { unfold trunc_mag. destruct (d - 53 - j) as [|k|k] eqn:E; try lia.
    - replace (53 - d) with 0 by lia. replace j with 0 by lia.
      simpl. now rewrite Z.div_1_r.
    - rewrite Z.shiftr_div_pow2, shl_spec by lia.
      replace (Z.pos k) with ((53 - d) + j) by lia.
      rewrite Z.pow_add_r by lia.
      assert (0 < 2 ^ (53 - d)) by (apply Z.pow_pos_nonneg; lia).
      rewrite (Z.mul_comm (2 ^ (53 - d)) (2 ^ j)).
      apply Z.div_mul_cancel_r; lia. }
  cbv zeta. rewrite Hq.
  assert (Z.pos p / 2 ^ j <= Z.pos p) by (apply Z.div_le_upper_bound; nia).
  destruct (Z.ltb_spec (Z.pos p / 2 ^ j) (2 ^ 64)); [reflexivity | lia].
Qed.

Lemma size_t_of_double_of_Z n :
  0 <= n < 2 ^ 53 -> size_t_of_double (double_of_Z n) = Some n.
Proof.
  intros Hn. rewrite double_of_Z_dyadic, size_t_of_dyadic by lia.
  now rewrite Z.div_1_r.
Qed.

Lemma size_t_of_double_nonneg d r : size_t_of_double d = Some r -> 0 <= r.
Proof.
  destruct d as [s|s| |s m e]; simpl; try discriminate.
  - intros [= <-]. lia.
  - assert (0 <= trunc_mag m e).
    { unfold trunc_mag. destruct e; [apply Z.shiftl_nonneg|apply Z.shiftl_nonneg|
        apply Z.shiftr_nonneg]; lia. }
    destruct s.
    + destruct (trunc_mag m e =? 0); [intros [= <-]; lia | discriminate].
    + destruct (trunc_mag m e <? 2 ^ 64); [intros [= <-]; lia | discriminate].
Qed.

Lemma dmul_one_exact p j :
  0 <= j <= 1022 -> 0 <= p < 2 ^ 53 ->
  dmul (double_of_Z 1) (dyadic p j) = dyadic p j.
Proof.
  intros Hj Hp. destruct p as [|p|p]; [reflexivity| |lia].
  change (double_of_Z 1) with (S754_finite false 4503599627370496 (-52)).
  rewrite (dyadic_pos p j) by lia.
  pose proof (digits2_pos_le_53 p ltac:(lia)) as Hd.
  unfold canon, dmul, SFmul. cbn [xorb].
  set (d := Z.pos (digits2_pos p)) in *.
  assert (Hd1 : 1 <= d) by (unfold d; lia).
  set (m := shl p (53 - d)).
  assert (Hdm : Z.pos (digits2_pos m) = 53).
  { unfold m. rewrite shl_digits by lia. fold d. lia. }
  assert (Hmul : (4503599627370496 * m)%positive = shl m 52) by reflexivity.
  rewrite Hmul.
  assert (Hshr : iter_pos shr_1 52 {| shr_m := Z.pos (shl m 52); shr_r := false;
                                      shr_s := false |} =
                 {| shr_m := Z.pos m; shr_r := false; shr_s := false |})
    by apply (shr_exact 52 m).
  unfold binary_round_aux, shr_fexp. cbn [Zdigits2 shr_record_of_loc].
  rewrite (shl_digits m 52), Hdm by lia. rewrite fexp_normal by lia.
  replace (53 + 52 + (-52 + (d - 53 - j)) - 53 - (-52 + (d - 53 - j)))
    with 52 by lia.
  cbn [shr]. rewrite !Hshr.
  cbn [shr_m loc_of_shr_record round_nearest_even Zdigits2 shr_record_of_loc].
  rewrite Hdm, fexp_normal by lia.
  replace (53 + (-52 + (d - 53 - j) + 52) - 53 - (-52 + (d - 53 - j) + 52))
    with 0 by lia.
  cbn [shr shr_m].
  destruct (Z.leb_spec (-52 + (d - 53 - j) + 52) (1024 - 53)); [|lia].
  f_equal. lia.
Qed.

End Binary64.

(** ** Item *)

Section ItemProperties.
Import PeerDiscovery.
Local Open Scope Z_scope.

(** The sample times in milliseconds. *)
Example half_second_ms :
  dmul half_second (double_of_Z 1000) = double_of_Z 500.
Proof. reflexivity. Qed.

Example eighth_second_ms :
  dmul eighth_second (double_of_Z 1000) = double_of_Z 125.
Proof. reflexivity. Qed.

Example november_2023_ms :
  dmul november_2023 (double_of_Z 1000) = dyadic 6963200000505679 12.
Proof. reflexivity. Qed.



(** The remaining time of an item whose expiration is [X / 2 ^ j] ms, at a
    time of [N / 2 ^ j] ms. *)
Lemma Item_ttl_exact (it : Item.t) (now : double) (j N X : Z) :
  0 <= j <= 1022 ->
  dmul now (double_of_Z 1000) = dyadic N j ->
  Item.expiration it = dyadic X j ->
  0 <= N < 2 ^ 53 -> 0 <= X < 2 ^ 53 ->
  Item.ttl it now = Some (Z.max 0 ((X - N) / 2 ^ j)).
Proof.
  intros Hj HN HX HNr HXr. unfold Item.ttl.
  assert (Hpow : 0 < 2 ^ j) by (apply Z.pow_pos_nonneg; lia).
  rewrite HN, HX, dle_exact by lia.
  destruct (Z.leb_spec X N) as [H|H].
  - f_equal. assert ((X - N) / 2 ^ j <= 0); [|lia].
    apply Z.div_le_upper_bound; lia.
  - rewrite dsub_exact, size_t_of_dyadic by lia. f_equal.
    assert (0 <= (X - N) / 2 ^ j) by (apply Z.div_pos; lia). lia.
Qed.

(** An integer exceeds the truncated remaining time exactly when it exceeds
    the remaining time. *)
Lemma ttl_guard (j N X t : Z) :
  0 <= j -> 0 <= t ->
  Z.max 0 ((X - N) / 2 ^ j) < t <-> 0 < t /\ X < N + t * 2 ^ j.
Proof.
  intros Hj Ht.
  assert (Hpow : 0 < 2 ^ j) by (apply Z.pow_pos_nonneg; lia).
  split.
  - intros H. split; [lia|].
    destruct (Z.lt_ge_cases X (N + t * 2 ^ j)) as [|Hge]; [assumption|].
    assert (t <= (X - N) / 2 ^ j) by (apply Z.div_le_lower_bound; lia). lia.
  - intros [Hpos Hlt].
    assert ((X - N) / 2 ^ j < t) by (apply Z.div_lt_upper_bound; lia). lia.
Qed.

(** A part of a millisecond is dropped by [ttl]: 1000.5 ms remain. *)
Example Item_ttl_truncates :
  Item.ttl {| Item.id := 0; Item.addrs := [];
              Item.expiration := dyadic 2001 1 |} (double_of_Z 0)
  = Some 1000.
Proof. reflexivity. Qed.

(** A refresh with a longer TTL moves the expiration, one with a shorter TTL
    does not. *)
Example Item_setTTL_longer :
  Item.setTTL 2000 (double_of_Z 1) (Item.make 7 [] 500 (double_of_Z 1)) =
  Some (Item.make 7 [] 2000 (double_of_Z 1)).
Proof. reflexivity. Qed.

Example Item_setTTL_shorter :
  Item.setTTL 200 (double_of_Z 1) (Item.make 7 [] 500 (double_of_Z 1)) =
  Some (Item.make 7 [] 500 (double_of_Z 1)).
Proof. reflexivity. Qed.

(** Beyond 53 binary digits the rounding of the remaining time and of the
    new deadline can move the expiration back: an item that expires at
    [2 ^ 53 + 126] ms, refreshed with a TTL of [2 ^ 53 + 1] ms at 0.125 s,
    expires at [2 ^ 53 + 124] ms afterwards. *)
Example Item_setTTL_rounding :
  Item.expiration <$>
    Item.setTTL (2 ^ 53 + 1) eighth_second
      {| Item.id := 0; Item.addrs := [];
         Item.expiration := double_of_Z (2 ^ 53 + 126) |}
  = Some (double_of_Z (2 ^ 53 + 124)) /\
  dle (double_of_Z (2 ^ 53 + 126)) (double_of_Z (2 ^ 53 + 124)) = false.
Proof. split; vm_compute; reflexivity. Qed.

(** The same rounding at the default TTL of 8 hours: constructed in
    September 2039, when [now * 1000] has passed [2 ^ 41], an item has one
    millisecond less than its TTL left at once. *)
Example Item_make_ttl_2039 :
  Item.ttl (Item.make 7 [] DefaultTTL september_2039) september_2039 =
  Some 28799999.
Proof. vm_compute. reflexivity. Qed.

Lemma Item_setTTL_later (it : Item.t) (now : double) (t r : Z) :
  Item.ttl it now = Some r -> r < t ->
  Item.setTTL t now it =
  Some {| Item.id := Item.id it; Item.addrs := Item.addrs it;
          Item.expiration :=
            dadd (dmul now (double_of_Z 1000)) (double_of_size_t t) |}.
Proof.
  intros Hr H. unfold Item.setTTL. rewrite Hr. cbn [mbind option_bind].
  destruct (Z.gtb_spec t r); [reflexivity | lia].
Qed.

Lemma Item_setTTL_kept (it : Item.t) (now : double) (t r : Z) :
  Item.ttl it now = Some r -> t <= r -> Item.setTTL t now it = Some it.
Proof.
  intros Hr H. unfold Item.setTTL. rewrite Hr. cbn [mbind option_bind].
  destruct (Z.gtb_spec t r); [lia | reflexivity].
Qed.

(** The deadline [now * 1000 + t] on the grid of [now * 1000]. *)
Lemma deadline_exact (now : double) (j N t : Z) :
  0 <= j <= 1022 ->
  dmul now (double_of_Z 1000) = dyadic N j ->
  0 <= N -> 0 <= t -> N + t * 2 ^ j < 2 ^ 53 ->
  dadd (dmul now (double_of_Z 1000)) (double_of_size_t t) =
  dyadic (N + t * 2 ^ j) j.
Proof.
  intros Hj HN HNr Ht Hsum.
  assert (Hpow : 0 < 2 ^ j) by (apply Z.pow_pos_nonneg; lia).
  unfold double_of_size_t.
  rewrite HN, double_of_Z_dyadic, (dyadic_finer t 0 j) by lia.
  rewrite Z.add_0_l. apply dadd_exact; nia.
Qed.

(** [setTTL] on numbers of at most 53 binary digits: the item after the
    call. *)
Lemma Item_setTTL_exact (it : Item.t) (t : Z) (now : double) (j N X : Z) :
  0 <= j <= 1022 ->
  dmul now (double_of_Z 1000) = dyadic N j ->
  Item.expiration it = dyadic X j ->
  0 <= N -> 0 <= X < 2 ^ 53 -> 0 <= t -> N + t * 2 ^ j < 2 ^ 53 ->
  Item.setTTL t now it =
  Some (if Z.max 0 ((X - N) / 2 ^ j) <? t
        then {| Item.id := Item.id it; Item.addrs := Item.addrs it;
                Item.expiration := dyadic (N + t * 2 ^ j) j |}
        else it).
Proof.
  intros Hj HN HX HNr HXr Ht Hsum.
  assert (Hpow : 0 < 2 ^ j) by (apply Z.pow_pos_nonneg; lia).
  pose proof (Item_ttl_exact it now j N X Hj HN HX ltac:(nia) HXr) as Httl.
  destruct (Z.ltb_spec (Z.max 0 ((X - N) / 2 ^ j)) t) as [H|H].
  - rewrite (Item_setTTL_later _ _ _ _ Httl) by lia.
    now rewrite (deadline_exact now j N t).
  - apply (Item_setTTL_kept _ _ _ _ Httl). lia.
Qed.




(** C2 (as stated): [setTTL] does not assign the new deadline regardless of
    the remaining time.  An item that expires at 5000 ms, refreshed at time 0
    with a TTL of 1000 ms, still expires at 5000 ms and not at 1000 ms. *)
Lemma Item_setTTL_unconditional_fails :
  ~ (Item.expiration <$>
       Item.setTTL 1000 (double_of_Z 0)
         {| Item.id := 0; Item.addrs := [];
            Item.expiration := double_of_Z 5000 |} =
     Some (dadd (dmul (double_of_Z 0) (double_of_Z 1000))
                (double_of_size_t 1000))).
Proof. vm_compute. discriminate. Qed.

(** C2 (amended): the comparison guards the assignment.  [setTTL(ttl, now)]
    assigns the deadline [now * 1000 + ttl] when [ttl] is greater than the
    remaining time [ttl(now)] of the item, and leaves the item as it is when
    [ttl] is not greater; in particular, on numbers of at most 53 binary
    digits with the same number [j] of digits after the point, it leaves
    the item as it is whenever the new deadline is not later than the stored
    expiration. *)
Theorem Item_setTTL_guarded (it : Item.t) (t : Z) (now : double) :
  (forall r : Z, Item.ttl it now = Some r -> r < t ->
   Item.setTTL t now it =
   Some {| Item.id := Item.id it; Item.addrs := Item.addrs it;
           Item.expiration :=
             dadd (dmul now (double_of_Z 1000)) (double_of_size_t t) |}) /\
  (forall r : Z, Item.ttl it now = Some r -> t <= r ->
   Item.setTTL t now it = Some it) /\
  (forall j N X : Z,
   0 <= j <= 1022 ->
   dmul now (double_of_Z 1000) = dyadic N j ->
   Item.expiration it = dyadic X j ->
   0 <= N -> 0 <= X < 2 ^ 53 -> 0 <= t -> N + t * 2 ^ j <= X ->
   Item.setTTL t now it = Some it).
Proof.
  split; [apply Item_setTTL_later|]. split; [apply Item_setTTL_kept|].
  intros j N X Hj HN HX HNr HXr Ht Hle.
  assert (Hpow : 0 < 2 ^ j) by (apply Z.pow_pos_nonneg; lia).
  apply (Item_setTTL_kept _ _ _ (Z.max 0 ((X - N) / 2 ^ j))).
  - apply Item_ttl_exact; [assumption | assumption | assumption | nia | lia].
  - pose proof (ttl_guard j N X t ltac:(lia) Ht). lia.
Qed.

Lemma Item_setTTL_guarded_witness :
  Item.setTTL 1000 (double_of_Z 0)
    {| Item.id := 0; Item.addrs := []; Item.expiration := double_of_Z 5000 |} =
  Some {| Item.id := 0; Item.addrs := []; Item.expiration := double_of_Z 5000 |} /\
  Item.setTTL 6000 (double_of_Z 0)
    {| Item.id := 0; Item.addrs := []; Item.expiration := double_of_Z 5000 |} =
  Some {| Item.id := 0; Item.addrs := []; Item.expiration := double_of_Z 6000 |} /\
  Item.setTTL 500 november_2023 (Item.make 7 [] 500 november_2023) =
  Some (Item.make 7 [] 500 november_2023).
Proof.
  split; [|split].
  - apply (proj1 (proj2 (Item_setTTL_guarded
      {| Item.id := 0; Item.addrs := []; Item.expiration := double_of_Z 5000 |}
      1000 (double_of_Z 0))) 5000); [reflexivity | lia].
  - apply (proj1 (Item_setTTL_guarded
      {| Item.id := 0; Item.addrs := []; Item.expiration := double_of_Z 5000 |}
      6000 (double_of_Z 0)) 5000); [reflexivity | lia].
  - apply (proj2 (proj2 (Item_setTTL_guarded
      (Item.make 7 [] 500 november_2023) 500 november_2023))
      12 6963200000505679 (6963200000505679 + 500 * 2 ^ 12));
      [lia | reflexivity | reflexivity | lia ..].
Defined.




End ItemProperties.

(** ** ConnState and the default settings *)

Section SettingsProperties.
Import PeerDiscovery.
Local Open Scope Z_scope.

(** C7: a connection is initialized exactly when its version is not zero. *)
Theorem ConnState_initialized_iff (c : ConnState.t) :
  ConnState.initialized c = true <-> ConnState.version c <> 0.
Proof.
  unfold ConnState.initialized.
  destruct (Z.eqb_spec (ConnState.version c) 0) as [E|E]; simpl.
  - split; [discriminate | intros H; now elim H].
  - split; [intros _; exact E | reflexivity].
Qed.

(** C8: the default settings are port 18888, a TTL of 8 hours, a period of
    60 seconds and a connection threshold of 10 seconds, each in
    milliseconds; they are values of an [int]. *)
Theorem Default_settings :
  DefaultPort = 18888 /\
  DefaultTTL = 28800000 /\ DefaultTTL = 8 * 60 * 60 * 1000 /\
  DefaultPeriod = 60000 /\ DefaultPeriod = 60 * 1000 /\
  DefaultExpThresh = 10000 /\ DefaultExpThresh = 10 * 1000 /\
  in_int DefaultPort /\ in_int DefaultTTL /\
  in_int DefaultPeriod /\ in_int DefaultExpThresh.
Proof.
  unfold DefaultPort, DefaultTTL, DefaultPeriod, DefaultExpThresh, in_int.
  repeat split; lia.
Qed.

End SettingsProperties.

(** ** Fetches *)

Section FetchProperties.
Import PeerDiscovery.
Local Open Scope Z_scope.

Lemma FetchExp_make_expiration (key : string) (keyId : UUID) (delay : Z)
    (now : double) :
  FetchExp.expiration (FetchExp.make key keyId delay now) =
  dadd (dmul now (double_of_Z 1000)) (double_of_size_t delay).
Proof. reflexivity. Qed.

(** The argument that [scheduleFetch] hands to the [FetchExp] constructor
    is the period when the period is a whole number of milliseconds. *)
Lemma scheduleFetch_delay_argument (p : Z) :
  0 <= p < 2 ^ 53 ->
  size_t_of_double
    (dmul (double_of_size_t (Fetch.delay (Fetch.make []))) (double_of_Z p)) =
  Some p.
Proof.
  intros H. cbn [Fetch.make Fetch.delay]. unfold double_of_size_t.
  rewrite (double_of_Z_dyadic p), dmul_one_exact by lia.
  now apply size_t_of_double_of_Z.
Qed.

(** C3 (as stated): the deadline is not always [now * 1000] plus the delay
    times the period.  With a period of 60000.5 ms a fetch scheduled at 2 s
    has the deadline 62000 ms and not 62000.5 ms. *)
Lemma scheduleFetch_deadline_fails :
  exists (st' : FetchState) (e : FetchExp.t),
    scheduleFetch "svc" 7 []
      (dadd (double_of_Z 60000) half_second)
      (double_of_Z 2) (mkFetchState ∅ []) = Some st' /\
    fetchExpiration st' = [e] /\
    FetchExp.expiration e = double_of_Z 62000 /\
    FetchExp.expiration e <>
    dadd (dmul (double_of_Z 2) (double_of_Z 1000))
         (dmul (double_of_size_t 1) (dadd (double_of_Z 60000) half_second)).
Proof.
  eexists _, _. split; [reflexivity|]. split; [reflexivity|].
  split; [reflexivity|]. vm_compute. discriminate.
Qed.

(** C3 (amended): a fetch scheduled at [now] is recorded with a delay of one
    tick, and the entry added to the expiration queue carries the key, the
    key identifier and the deadline [now * 1000] plus the whole part [p] of
    the delay times the period; that is [now * 1000] plus the delay times
    the period when the period is a whole number of milliseconds below
    [2 ^ 53]. *)
Theorem scheduleFetch_first (key : string) (keyId : UUID) (node : NodeAddress)
    (period_ now : double) (p : Z) (st : FetchState) :
  size_t_of_double (dmul (double_of_size_t 1) period_) = Some p ->
  exists (st' : FetchState) (f : Fetch.t) (e : FetchExp.t),
    scheduleFetch key keyId node period_ now st = Some st' /\
    fetches st' !! key ≫= (fun m => m !! keyId) = Some f /\
    Fetch.delay f = 1 /\ Fetch.node f = node /\
    fetchExpiration st' = fetchExpiration st ++ [e] /\
    FetchExp.key e = key /\ FetchExp.keyId e = keyId /\
    FetchExp.expiration e =
      dadd (dmul now (double_of_Z 1000)) (double_of_size_t p) /\
    (period_ = double_of_Z p -> p < 2 ^ 53 ->
     FetchExp.expiration e =
       dadd (dmul now (double_of_Z 1000))
            (dmul (double_of_size_t (Fetch.delay f)) period_)).
Proof.
  intros Hp.
  eexists _, (Fetch.make node), _. split.
  { unfold scheduleFetch. cbn [Fetch.make Fetch.delay]. rewrite Hp.
    reflexivity. }
  split.
  { cbn [fetches]. rewrite lookup_insert_eq. simpl. apply lookup_insert_eq. }
  split; [reflexivity|]. split; [reflexivity|].
  split; [reflexivity|]. split; [reflexivity|]. split; [reflexivity|].
  split; [reflexivity|].
  intros -> Hlt. rewrite FetchExp_make_expiration.
  cbn [Fetch.make Fetch.delay]. unfold double_of_size_t.
  assert (0 <= p) by (eapply size_t_of_double_nonneg; exact Hp).
  now rewrite (double_of_Z_dyadic p), dmul_one_exact by lia.
Qed.

Lemma scheduleFetch_first_witness :
  exists (st' : FetchState) (f : Fetch.t) (e : FetchExp.t),
    scheduleFetch "svc" 7 [] (double_of_Z 60000) (double_of_Z 2)
      (mkFetchState ∅ []) = Some st' /\
    fetches st' !! "svc"%string ≫= (fun m => m !! 7) = Some f /\
    Fetch.delay f = 1 /\
    fetchExpiration st' = [e] /\
    FetchExp.expiration e = double_of_Z 62000.
Proof.
  destruct (scheduleFetch_first "svc" 7 [] (double_of_Z 60000) (double_of_Z 2)
              60000 (mkFetchState ∅ []))
    as (st' & f & e & Hst & Hf & Hd & _ & He & _ & _ & Hexp & _);
    [reflexivity|].
  exists st', f, e. repeat split; assumption.
Defined.

End FetchProperties.

(** ** Watches *)

Section WatchProperties.
Import PeerDiscovery.
Context {WatchFn : Type}.
Implicit Types (w x y : Watch.t WatchFn) (s : list (Watch.t WatchFn)).
Implicit Types (watches : gmap string (list (Watch.t WatchFn))).

Lemma Watch_lt_handle x y :
  Watch.lt x y = true <-> (Watch.handle x < Watch.handle y)%Z.
Proof. unfold Watch.lt. apply Z.ltb_lt. Qed.

Lemma Watch_equiv_handle x y :
  StdSet.equiv Watch.lt x y = true <-> Watch.handle x = Watch.handle y.
Proof.
  unfold StdSet.equiv, Watch.lt.
  rewrite andb_true_iff, !negb_true_iff, !Z.ltb_ge. lia.
Qed.

Lemma Watch_wf_cons y s :
  StdSet.wf Watch.lt (y :: s) <->
  Forall (fun x => (Watch.handle y < Watch.handle x)%Z) s /\ StdSet.wf Watch.lt s.
Proof.
  unfold StdSet.wf. split.
  - intros H. apply StronglySorted_inv in H as [Hs Hall]. split; [|exact Hs].
    eapply Forall_impl; [exact Hall|]. intros x. apply Watch_lt_handle.
  - intros [Hall Hs]. constructor; [exact Hs|].
    eapply Forall_impl; [exact Hall|]. intros x. apply Watch_lt_handle.
Qed.

(** [insert] adds nothing but the new element. *)
Lemma Watch_insert_elem w s x :
  x ∈ (StdSet.insert Watch.lt w s).1 -> x = w \/ x ∈ s.
Proof.
  induction s as [|y r IH]; simpl.
  - intros H. apply list_elem_of_singleton in H. now left.
  - destruct (Watch.lt w y); simpl.
    + intros H. apply elem_of_cons in H as [->|H]; [now left | now right].
    + destruct (Watch.lt y w); simpl.
      * destruct (StdSet.insert Watch.lt w r) as [r' b]. simpl in *.
        intros H. apply elem_of_cons in H as [->|H].
        -- right. left.
        -- destruct (IH H) as [->|Hr]; [now left | right; now right].
      * intros H. now right.
Qed.

Lemma Watch_insert_wf w s :
  StdSet.wf Watch.lt s -> StdSet.wf Watch.lt (StdSet.insert Watch.lt w s).1.
Proof.
  induction s as [|y r IH]; simpl.
  - intros _. repeat constructor.
  - intros H. pose proof H as Hyr. apply Watch_wf_cons in H as [Hall Hr].
    destruct (Watch.lt w y) eqn:Ewy; simpl.
    + apply Watch_lt_handle in Ewy. apply Watch_wf_cons. split; [|exact Hyr].
      constructor; [exact Ewy|].
      eapply Forall_impl; [exact Hall|]. simpl. intros x Hx. lia.
    + destruct (Watch.lt y w) eqn:Eyw; simpl; [|exact Hyr].
      apply Watch_lt_handle in Eyw. specialize (IH Hr).
      pose proof (Watch_insert_elem w r) as Hel.
      destruct (StdSet.insert Watch.lt w r) as [r' b]. simpl in *.
      apply Watch_wf_cons. split; [|exact IH].
      apply Forall_forall. intros x Hx.
      destruct (Hel x Hx) as [->|Hxr]; [exact Eyw|].
      rewrite Forall_forall in Hall. now apply Hall.
Qed.

(** A set holds at most one watch for a handle. *)
Lemma Watch_wf_NoDup s :
  StdSet.wf Watch.lt s -> NoDup (Watch.handle <$> s).
Proof.
  induction s as [|y r IH].
  - intros _. constructor.
  - intros H. apply Watch_wf_cons in H as [Hall Hr].
    rewrite fmap_cons. constructor; [|now apply IH].
    intros Hin. apply list_elem_of_fmap in Hin as (x & Hx & Hxr).
    rewrite Forall_forall in Hall. specialize (Hall x Hxr). lia.
Qed.

(** A watch whose handle is in the set is rejected. *)
Lemma Watch_insert_present w s x :
  StdSet.wf Watch.lt s -> x ∈ s -> Watch.handle x = Watch.handle w ->
  StdSet.insert Watch.lt w s = (s, false).
Proof.
  induction s as [|y r IH]; intros Hwf Hx Heq.
  - inversion Hx.
  - apply Watch_wf_cons in Hwf as [Hall Hr]. simpl.
    rewrite Forall_forall in Hall.
    destruct (Watch.lt w y) eqn:Ewy.
    + apply Watch_lt_handle in Ewy.
      apply elem_of_cons in Hx as [->|Hx]; [lia|].
      specialize (Hall x Hx). lia.
    + destruct (Watch.lt y w) eqn:Eyw; [|reflexivity].
      apply Watch_lt_handle in Eyw.
      apply elem_of_cons in Hx as [->|Hx]; [lia|].
      now rewrite (IH Hr Hx Heq).
Qed.

(** A watch whose handle is not in the set is added. *)
Lemma Watch_insert_absent w s :
  (forall x, x ∈ s -> Watch.handle x <> Watch.handle w) ->
  (StdSet.insert Watch.lt w s).2 = true /\ w ∈ (StdSet.insert Watch.lt w s).1.
Proof.
  induction s as [|y r IH]; intros Hno; simpl.
  - split; [reflexivity | left].
  - destruct (Watch.lt w y) eqn:Ewy; simpl.
    + split; [reflexivity | left].
    + destruct (Watch.lt y w) eqn:Eyw.
      * destruct IH as [Hb Hin].
        { intros x Hx. apply Hno. now right. }
        destruct (StdSet.insert Watch.lt w r) as [r' b]. simpl in *.
        split; [exact Hb | now right].
      * exfalso. apply (Hno y); [left|].
        apply Watch_equiv_handle. unfold StdSet.equiv.
        now rewrite Eyw, Ewy.
Qed.

Lemma watches_wf_empty : watches_wf (∅ : gmap string (list (Watch.t WatchFn))).
Proof. intros key s H. rewrite lookup_empty in H. discriminate. Qed.

Lemma watches_wf_insert key w watches :
  watches_wf watches -> watches_wf (watches_insert key w watches).
Proof.
  intros Hwf k s. unfold watches_insert.
  destruct (decide (key = k)) as [->|Hne].
  - rewrite lookup_insert_eq. intros [= <-]. apply Watch_insert_wf.
    destruct (watches !! k) as [s0|] eqn:E; simpl.
    + exact (Hwf k s0 E).
    + constructor.
  - rewrite lookup_insert_ne by exact Hne. apply Hwf.
Qed.

(** C5: the order of watches looks at the handles only, a set of the watch
    map holds at most one watch for a handle, and the insertion of a watch
    whose handle is in the set of its key is rejected and leaves the map as
    it is, whichever callbacks the two watches carry. *)
Theorem watches_insert_same_handle key w x s watches :
  watches_wf watches -> watches !! key = Some s ->
  x ∈ s -> Watch.handle x = Watch.handle w ->
  (forall a b a' b' : Watch.t WatchFn,
     Watch.handle a = Watch.handle a' -> Watch.handle b = Watch.handle b' ->
     Watch.lt a b = Watch.lt a' b') /\
  StdSet.equiv Watch.lt w x = true /\
  NoDup (Watch.handle <$> s) /\
  StdSet.insert Watch.lt w s = (s, false) /\
  watches_insert key w watches = watches /\
  watches_wf (watches_insert key w watches).
Proof.
  intros Hwf Hs Hx Heq.
  split; [intros a b a' b' Ha Hb; unfold Watch.lt; now rewrite Ha, Hb|].
  split; [now apply Watch_equiv_handle|].
  split; [apply Watch_wf_NoDup; exact (Hwf key s Hs)|].
  pose proof (Watch_insert_present w s x (Hwf key s Hs) Hx Heq) as Hins.
  split; [exact Hins|].
  split; [|now apply watches_wf_insert].
  unfold watches_insert. rewrite Hs. simpl. rewrite Hins. simpl.
  now apply insert_id.
Qed.

End WatchProperties.

Lemma watches_insert_same_handle_witness :
  PeerDiscovery.watches_insert "svc" (PeerDiscovery.Watch.make 7 (Some 2%nat))
    (PeerDiscovery.watches_insert "svc" (PeerDiscovery.Watch.make 7 (Some 1%nat)) ∅) =
  PeerDiscovery.watches_insert "svc" (PeerDiscovery.Watch.make 7 (Some 1%nat)) ∅.
Proof.
  eapply (watches_insert_same_handle "svc"
            (PeerDiscovery.Watch.make 7 (Some 2%nat))
            (PeerDiscovery.Watch.make 7 (Some 1%nat))
            [PeerDiscovery.Watch.make 7 (Some 1%nat)]).
  - apply watches_wf_insert, watches_wf_empty.
  - reflexivity.
  - left.
  - reflexivity.
Defined.

(** ** Sockets *)

Section SocketProperties.
Context {platform : Platform}.
Local Open Scope Z_scope.

Lemma InterfaceIt_throws host port gai w :
  gai_ret gai <> 0 -> exists e w', InterfaceIt host port gai w = (Throw e, w').
Proof.
  intros Hret. unfold InterfaceIt, mbind, M_bind.
  destruct (Z.eqb_spec (gai_ret gai) 0) as [E|_]; [contradiction|]. simpl.
  unfold SLICK_CHECK_ERRNO, throw.
  destruct (negb (gai_ret gai =? EAI_SYSTEM)); simpl; eauto.
Qed.

Lemma InterfaceIt_returns host port gai w :
  gai_ret gai = 0 ->
  exists w', InterfaceIt host port gai w = (Ok (gai_list gai), w').
Proof.
  intros Hret. unfold InterfaceIt, mbind, M_bind. rewrite Hret. simpl. eauto.
Qed.

Lemma listen_loop_returns flags its fds w :
  exists w',
    PassiveSockets.listen_loop flags its fds w = (Ok (fds ++ listening its), w').
Proof.
  revert fds w. induction its as [|it rest IH]; intros fds w; simpl.
  - rewrite app_nil_r. eauto.
  - unfold mbind, M_bind, syscall. simpl.
    destruct (ret (socket_ans it) <? 0); simpl; [apply IH|].
    destruct (ret (bind_ans it) <? 0); simpl; [apply IH|].
    destruct (ret (listen_ans it) <? 0); simpl; [apply IH|].
    destruct (IH (fds ++ [ret (socket_ans it)])
                {| errno := errno w;
                   log := ((log w ++
                            [sys_socket (ai_family (ai it))
                               (Z.lor (ai_socktype (ai it)) flags)
                               (ai_protocol (ai it))]) ++
                           [sys_bind (ret (socket_ans it))]) ++
                          [sys_listen (ret (socket_ans it)) (Z.shiftl 1 8)] |})
      as [w' Hw'].
    exists w'. rewrite Hw'. now rewrite <- app_assoc.
Qed.

Lemma listening_cons_fail it rest :
  cannot_listen it -> listening (it :: rest) = listening rest.
Proof.
  intros Hit. unfold listening. cbn [omap list_omap].
  destruct Hit as [H|[H|H]]; apply Z.ltb_lt in H; rewrite H;
    rewrite ?orb_true_r; reflexivity.
Qed.

Lemma listening_nil its : Forall cannot_listen its -> listening its = [].
Proof.
  induction 1 as [|it rest Hit _ IH]; [reflexivity|].
  now rewrite listening_cons_fail.
Qed.

Lemma connect_loop_all_fail flags its s w :
  Forall cannot_connect its ->
  exists w', Socket.connect_loop flags its s w = (Ok s, w').
Proof.
  intros Hall. revert w. induction Hall as [|it rest Hit _ IH]; intros w; simpl.
  - unfold mret, M_ret. eauto.
  - unfold mbind, M_bind, syscall, get_errno. simpl.
    destruct (Z.ltb_spec (ret (socket_ans it)) 0) as [Hs|Hs]; [apply IH|].
    destruct Hit as [Hit|[Hc He]]; [lia|].
    apply Z.ltb_lt in Hc. rewrite Hc. simpl.
    destruct (Z.eqb_spec (err (connect_ans it)) EINPROGRESS); [contradiction|].
    simpl. apply IH.
Qed.

(** C6: when no interface of the requested port can be bound and listened
    on, the [PassiveSockets] constructor throws, and when a connection can
    be made to no interface, the connecting [Socket] constructor throws;
    neither returns an object. *)
Theorem constructors_throw (host : string) (ports : Port * Port) (flags : Z)
    (gai : GaiAnswer) (setsockopt_ans : Answer) (w : World) :
  (Forall cannot_listen (gai_list gai) ->
   exists e w',
     PassiveSockets.make ports flags gai w = (Throw e, w') /\
     (gai_ret gai = 0 -> e = runtime_error "ERROR: no valid interface")) /\
  (Forall cannot_connect (gai_list gai) ->
   exists e w',
     Socket.make host ports flags gai setsockopt_ans w = (Throw e, w') /\
     (gai_ret gai = 0 -> e = runtime_error "ERROR: no valid interface")).
Proof.
  split; intros Hall.
  - unfold PassiveSockets.make, mbind, M_bind.
    destruct (Z.eq_dec (gai_ret gai) 0) as [E|E].
    + destruct (InterfaceIt_returns None (fst ports) gai w E) as [w1 ->].
      destruct (listen_loop_returns flags (gai_list gai) [] w1) as [w2 ->].
      rewrite (listening_nil _ Hall). simpl. unfold throw. eauto.
    + destruct (InterfaceIt_throws None (fst ports) gai w E) as (e & w1 & ->).
      eexists _, _. split; [reflexivity | contradiction].
  - unfold Socket.make, mbind, M_bind.
    destruct (Z.eq_dec (gai_ret gai) 0) as [E|E].
    + destruct (InterfaceIt_returns (Some host) (fst ports) gai w E) as [w1 ->].
      destruct (connect_loop_all_fail flags (gai_list gai)
                  {| Socket.fd_ := -1; Socket.addr := [];
                     Socket.addrlen := 0 |} w1 Hall) as [w2 ->].
      simpl. unfold throw. eauto.
    + destruct (InterfaceIt_throws (Some host) (fst ports) gai w E)
        as (e & w1 & ->).
      eexists _, _. split; [reflexivity | contradiction].
Qed.

(** The constructor returns an object when some interface can be used. *)
Lemma PassiveSockets_make_returns ports flags gai w :
  gai_ret gai = 0 -> listening (gai_list gai) <> [] ->
  exists w',
    PassiveSockets.make ports flags gai w =
    (Ok {| PassiveSockets.fds_ := listening (gai_list gai) |}, w').
Proof.
  intros E Hne. unfold PassiveSockets.make, mbind, M_bind.
  destruct (InterfaceIt_returns None (fst ports) gai w E) as [w1 ->].
  destruct (listen_loop_returns flags (gai_list gai) [] w1) as [w2 ->].
  simpl. rewrite bool_decide_eq_false_2 by exact Hne.
  unfold mret, M_ret. eauto.
Qed.

(** The destructor of a socket without a descriptor makes no call. *)
Lemma dtor_no_descriptor s shutdown_ans close_ans w :
  Socket.fd_ s < 0 -> Socket.dtor s shutdown_ans close_ans w = (Ok (), w).
Proof.
  intros H. apply Z.ltb_lt in H. unfold Socket.dtor, noexcept.
  now rewrite H.
Qed.

(** C9: when [accept4] fails with [EAGAIN] or [EWOULDBLOCK], [accept]
    returns a socket whose descriptor is negative, throws nothing and makes
    no call but [accept4]; when [accept4] fails with another error,
    [accept] throws. *)
Theorem Socket_accept_failure (fd flags : Z) (a : Socket.AcceptAnswer)
    (setsockopt_ans : Answer) (w : World) :
  ret (Socket.accept4_ans a) < 0 ->
  (err (Socket.accept4_ans a) = EAGAIN \/
   err (Socket.accept4_ans a) = EWOULDBLOCK ->
   exists s w',
     Socket.accept fd flags a setsockopt_ans w = (Ok s, w') /\
     Socket.fd_ s < 0 /\
     log w' = log w ++ [sys_accept4 fd flags]) /\
  (err (Socket.accept4_ans a) <> EAGAIN ->
   err (Socket.accept4_ans a) <> EWOULDBLOCK ->
   exists e w',
     Socket.accept fd flags a setsockopt_ans w = (Throw e, w') /\
     log w' = log w ++ [sys_accept4 fd flags]).
Proof.
  intros Hret. pose proof Hret as Hlt. apply Z.ltb_lt in Hlt.
  unfold Socket.accept, mbind, M_bind, syscall, get_errno. simpl.
  rewrite Hlt. simpl. split.
  - intros Herr.
    assert (E : (err (Socket.accept4_ans a) =? EAGAIN)
                || (err (Socket.accept4_ans a) =? EWOULDBLOCK) = true).
    { apply orb_true_iff. destruct Herr as [->| ->];
        [left | right]; apply Z.eqb_refl. }
    rewrite E. unfold mret, M_ret. eexists _, _. split; [reflexivity|].
    simpl. split; [exact Hret | reflexivity].
  - intros H1 H2.
    destruct (Z.eqb_spec (err (Socket.accept4_ans a)) EAGAIN); [contradiction|].
    destruct (Z.eqb_spec (err (Socket.accept4_ans a)) EWOULDBLOCK);
      [contradiction|].
    simpl. unfold unwinding, mbind, M_bind, SLICK_CHECK_ERRNO.
    destruct (Z.leb_spec 0 (ret (Socket.accept4_ans a))) as [Hge|_]; [lia|].
    rewrite dtor_no_descriptor by exact Hret.
    eexists _, _. split; reflexivity.
Qed.

End SocketProperties.

(** ** Moves and destruction *)

Section StoreProperties.
Import Store.
Local Open Scope Z_scope.
Implicit Types (h : Store.t) (w : World) (s o : Socket.t).

Lemma live_lt h i s : live h i = Some s -> (i < length h)%nat.
Proof.
  unfold live. destruct (h !! i) as [x|] eqn:E; [|discriminate].
  intros _. exact (lookup_lt_Some _ _ _ E).
Qed.

Lemma live_write h i j f :
  live (write i f h) j =
  if decide (i = j) then f <$> live h i else live h j.
Proof.
  unfold live, write. rewrite list_lookup_alter.
  destruct (decide (i = j)) as [->|Hne]; [|reflexivity].
  destruct (h !! j) as [[s|]|]; reflexivity.
Qed.

Lemma live_app h s j :
  live (h ++ [Some s]) j =
  if decide (j = length h) then Some s else live h j.
Proof.
  unfold live. destruct (decide (j = length h)) as [->|Hne].
  - now rewrite list_lookup_middle.
  - destruct (decide (j < length h)%nat) as [Hlt|Hge].
    + now rewrite lookup_app_l.
    + rewrite !lookup_ge_None_2; [reflexivity | lia |].
      rewrite length_app. simpl. lia.
Qed.

Lemma live_end h obj j :
  (obj < length h)%nat ->
  live (<[obj := None]> h) j = if decide (obj = j) then None else live h j.
Proof.
  intros Hlt. unfold live. destruct (decide (obj = j)) as [->|Hne].
  - now rewrite list_lookup_insert_eq.
  - now rewrite list_lookup_insert_ne.
Qed.

(** The descriptors after a move construction. *)
Lemma move_ctor_fd_at other h h' :
  move_ctor other h = Some h' ->
  exists o, live h other = Some o /\
    forall j, fd_at h' j =
      if decide (j = other) then Some (-1)
      else if decide (j = length h) then Some (Socket.fd_ o)
      else fd_at h j.
Proof.
  unfold move_ctor. destruct (live h other) as [o|] eqn:Ho; [|discriminate].
  simpl. intros [= <-]. exists o. split; [reflexivity|].
  intros j. unfold fd_at. rewrite live_write, !live_app.
  pose proof (live_lt _ _ _ Ho) as Hlt.
  repeat case_decide; subst; try lia; try congruence;
    rewrite ?Ho; reflexivity.
Qed.

(** The descriptors after a move assignment. *)
Lemma move_assign_fd_at this other h h' :
  move_assign this other h = Some h' ->
  exists o, live h other = Some o /\
    forall j, fd_at h' j =
      if decide (j = other) then Some (-1)
      else if decide (j = this) then Some (Socket.fd_ o)
      else fd_at h j.
Proof.
  unfold move_assign. intros H.
  destruct (live h this) as [t0|] eqn:Ht; [|discriminate].
  destruct (live h other) as [o|] eqn:Ho; [|discriminate].
  cbn [mbind option_bind] in H.
  match type of H with
  | context [mbind _ (live ?h2 other)] =>
      destruct (live h2 other) as [o2|] eqn:Ho2; [|discriminate]
  end.
  cbn [mbind option_bind] in H.
  match type of H with
  | context [mbind _ (live ?h3 other)] =>
      destruct (live h3 other) as [o3|] eqn:Ho3; [|discriminate]
  end.
  cbn [mbind option_bind] in H. injection H as <-.
  exists o. split; [reflexivity|].
  intros j. unfold fd_at. rewrite !live_write.
  repeat case_decide; subst; try congruence;
    rewrite ?Ht, ?Ho; reflexivity.
Qed.

(** A transfer of a descriptor from [other] to [target]. *)
Lemma transfer_consistent h h' w (other target : nat) (fdo : Z) :
  fd_at h other = Some fdo ->
  (forall j, fd_at h' j =
     if decide (j = other) then Some (-1)
     else if decide (j = target) then Some fdo
     else fd_at h j) ->
  consistent h w -> consistent h' w.
Proof.
  intros Ho Hfd (Hex & Hw & Hheld).
  assert (Hfrom : forall j fd, fd_at h' j = Some fd -> 0 <= fd ->
            j <> other /\
            ((j = target /\ fd = fdo) \/ (j <> target /\ fd_at h j = Some fd))).
  { intros j fd Hj Hpos. rewrite Hfd in Hj.
    destruct (decide (j = other)) as [->|Hjo]; [injection Hj; lia|].
    split; [exact Hjo|].
    destruct (decide (j = target)) as [->|Hjt].
    - left. split; [reflexivity | congruence].
    - right. split; assumption. }
  split; [|split; [exact Hw|]].
  - intros i j fd Hi Hj Hpos.
    destruct (Hfrom i fd Hi Hpos) as [Hio [[Hit Hif]|[Hit Hi']]];
      destruct (Hfrom j fd Hj Hpos) as [Hjo [[Hjt Hjf]|[Hjt Hj']]].
    + congruence.
    + exfalso. apply Hjo. subst fd. exact (Hex j other fdo Hj' Ho Hpos).
    + exfalso. apply Hio. subst fd. exact (Hex i other fdo Hi' Ho Hpos).
    + exact (Hex i j fd Hi' Hj' Hpos).
  - intros j fd Hj Hpos.
    destruct (Hfrom j fd Hj Hpos) as [_ [[_ Hjf]|[_ Hj']]].
    + subst fd. exact (Hheld other fdo Ho Hpos).
    + exact (Hheld j fd Hj' Hpos).
Qed.

Lemma closed_snoc l c :
  closed (l ++ [c]) =
  closed l ++ match c with sys_close fd => [fd] | _ => [] end.
Proof. unfold closed. rewrite omap_app. destruct c; reflexivity. Qed.

Lemma shut_down_snoc l c :
  shut_down (l ++ [c]) =
  shut_down l ++ match c with sys_shutdown fd => [fd] | _ => [] end.
Proof. unfold shut_down. rewrite omap_app. destruct c; reflexivity. Qed.

Lemma NoDup_snoc_fresh (l : list Z) (x : Z) : NoDup l -> x ∉ l -> NoDup (l ++ [x]).
Proof.
  intros Hl Hx. apply NoDup_app. split; [exact Hl|]. split.
  - intros y Hy Hin. apply list_elem_of_singleton in Hin. now subst.
  - apply NoDup_singleton.
Qed.

(** The destructor of a live object of a consistent store. *)
Lemma dtor_consistent h w obj s sa ca :
  consistent h w -> live h obj = Some s ->
  match Socket.dtor s sa ca w with
  | (Ok _, w') => consistent (<[obj := None]> h) w'
  | (_, w') => closed_once w'
  end.
Proof.
  intros (Hex & [Hc Hs] & Hheld) Hobj.
  pose proof (live_lt _ _ _ Hobj) as Hlt.
  assert (Hfd : forall j fd, fd_at (<[obj := None]> h) j = Some fd ->
            j <> obj /\ fd_at h j = Some fd).
  { intros j fd. unfold fd_at. rewrite live_end by exact Hlt.
    destruct (decide (obj = j)) as [->|Hne]; [discriminate|].
    intros H. split; [congruence | exact H]. }
  assert (Hex' : exclusive (<[obj := None]> h)).
  { intros i j fd Hi Hj Hpos.
    apply Hfd in Hi as [_ Hi]. apply Hfd in Hj as [_ Hj].
    exact (Hex i j fd Hi Hj Hpos). }
  assert (Hmine : fd_at h obj = Some (Socket.fd_ s)).
  { unfold fd_at. now rewrite Hobj. }
  unfold Socket.dtor, noexcept.
  destruct (Z.ltb_spec (Socket.fd_ s) 0) as [Hneg|Hpos].
  { unfold mret, M_ret. split; [exact Hex'|]. split; [split; assumption|].
    intros j fd Hj Hfdpos. apply Hfd in Hj as [_ Hj].
    exact (Hheld j fd Hj Hfdpos). }
  destruct (Hheld obj (Socket.fd_ s) Hmine Hpos) as [Hnc Hns].
  unfold mbind, M_bind, syscall, SLICK_CHECK_ERRNO. cbn -[closed shut_down].
  destruct (ret sa =? 0); cbn -[closed shut_down].
  - assert (Hw' : NoDup (closed ((log w ++ [sys_shutdown (Socket.fd_ s)]) ++
                                 [sys_close (Socket.fd_ s)])) /\
                  NoDup (shut_down ((log w ++ [sys_shutdown (Socket.fd_ s)]) ++
                                    [sys_close (Socket.fd_ s)]))).
    { rewrite !closed_snoc, !shut_down_snoc, !app_nil_r.
      split; apply NoDup_snoc_fresh; assumption. }
    destruct (ret ca =? 0); cbn -[closed shut_down]; [|exact Hw'].
    split; [exact Hex'|]. split; [exact Hw'|].
    intros j fd Hj Hfdpos. apply Hfd in Hj as [Hne Hj].
    destruct (Hheld j fd Hj Hfdpos) as [Hjc Hjs].
    assert (fd <> Socket.fd_ s).
    { intros ->. apply Hne. exact (Hex j obj _ Hj Hmine Hfdpos). }
    cbn -[closed shut_down].
    rewrite !closed_snoc, !shut_down_snoc, !app_nil_r.
    rewrite !elem_of_app, !list_elem_of_singleton. tauto.
  - unfold closed_once. cbn -[closed shut_down].
    rewrite closed_snoc, shut_down_snoc, app_nil_r.
    split; [exact Hc|]. now apply NoDup_snoc_fresh.
Qed.

Lemma step_consistent op h w :
  consistent h w ->
  match step op h w with
  | Next h' w' => consistent h' w'
  | Halt w' => closed_once w'
  end.
Proof.
  intros Hinv. pose proof Hinv as (_ & Hw & _).
  destruct op as [other|this other|obj sa ca]; simpl.
  - destruct (move_ctor other h) as [h'|] eqn:E; [|exact Hw].
    destruct (move_ctor_fd_at _ _ _ E) as (o & Ho & Hfd).
    apply (transfer_consistent h h' w other (length h) (Socket.fd_ o));
      [unfold fd_at; now rewrite Ho | exact Hfd | exact Hinv].
  - destruct (move_assign this other h) as [h'|] eqn:E; [|exact Hw].
    destruct (move_assign_fd_at _ _ _ _ E) as (o & Ho & Hfd).
    apply (transfer_consistent h h' w other this (Socket.fd_ o));
      [unfold fd_at; now rewrite Ho | exact Hfd | exact Hinv].
  - destruct (live h obj) as [s|] eqn:E; [|exact Hw].
    pose proof (dtor_consistent h w obj s sa ca Hinv E) as Hd.
    destruct (Socket.dtor s sa ca w) as [[[]|e|] w']; exact Hd.
Qed.

Lemma run_closed_once ops h w : consistent h w -> closed_once (run ops h w).
Proof.
  revert h w. induction ops as [|op rest IH]; intros h w Hinv; simpl.
  - apply Hinv.
  - pose proof (step_consistent op h w Hinv) as Hstep.
    destruct (step op h w) as [h' w'|w']; [now apply IH | exact Hstep].
Qed.

(** A move construction from a live object takes place. *)
Lemma move_ctor_live other h o :
  live h other = Some o -> exists h', move_ctor other h = Some h'.
Proof. intros Ho. unfold move_ctor. rewrite Ho. simpl. eauto. Qed.

(** A move assignment between live objects takes place. *)
Lemma move_assign_live this other h t0 o :
  live h this = Some t0 -> live h other = Some o ->
  exists h', move_assign this other h = Some h'.
Proof.
  intros Ht Ho. unfold move_assign. rewrite Ht, Ho.
  cbn [mbind option_bind].
  assert (Hw : forall h2 i f, is_Some (live h2 other) ->
            is_Some (live (write i f h2) other)).
  { intros h2 i f [x Hx]. rewrite live_write.
    case_decide; subst; rewrite Hx; simpl; eauto. }
  assert (H1 : is_Some (live h other)) by eauto.
  apply (Hw _ this (Socket.set_fd_ (Socket.fd_ o))) in H1.
  apply (Hw _ other (Socket.set_fd_ (-1))) in H1.
  destruct H1 as [o2 Ho2]. rewrite Ho2. cbn [mbind option_bind].
  assert (H2 : is_Some (live (write other (Socket.set_fd_ (-1))
                 (write this (Socket.set_fd_ (Socket.fd_ o)) h)) other)) by eauto.
  apply (Hw _ this (Socket.set_addr (Socket.addr o2))) in H2.
  destruct H2 as [o3 Ho3]. rewrite Ho3. cbn [mbind option_bind]. eauto.
Qed.

(** C10: a move construction and a move assignment of live objects take
    place, leave the descriptor -1 in the object moved from and hand its
    descriptor to the target; the destructor of an object with a negative
    descriptor makes no call; and a program of moves and destructions over
    objects that hold distinct descriptors shuts down and closes no
    descriptor twice. *)
Theorem Socket_moves_close_once :
  (forall other h o, live h other = Some o ->
     exists h', move_ctor other h = Some h' /\
       fd_at h' other = Some (-1) /\
       fd_at h' (length h) = Some (Socket.fd_ o)) /\
  (forall this other h t0 o,
     live h this = Some t0 -> live h other = Some o ->
     exists h', move_assign this other h = Some h' /\
       fd_at h' other = Some (-1) /\
       (this <> other -> fd_at h' this = Some (Socket.fd_ o))) /\
  (forall s sa ca w, Socket.fd_ s < 0 -> Socket.dtor s sa ca w = (Ok (), w)) /\
  (forall ops h w, exclusive h -> log w = [] ->
     NoDup (closed (log (run ops h w))) /\
     NoDup (shut_down (log (run ops h w)))).
Proof.
  split; [|split; [|split]].
  - intros other h o Ho0.
    destruct (move_ctor_live _ _ _ Ho0) as [h' E]. exists h'.
    split; [exact E|].
    destruct (move_ctor_fd_at _ _ _ E) as (o' & Ho & Hfd).
    assert (o' = o) as -> by congruence.
    pose proof (live_lt _ _ _ Ho) as Hlt.
    rewrite !Hfd. rewrite decide_True by reflexivity. split; [reflexivity|].
    rewrite decide_False by lia. now rewrite decide_True by reflexivity.
  - intros this other h t0 o Ht0 Ho0.
    destruct (move_assign_live _ _ _ _ _ Ht0 Ho0) as [h' E]. exists h'.
    split; [exact E|].
    destruct (move_assign_fd_at _ _ _ _ E) as (o' & Ho & Hfd).
    assert (o' = o) as -> by congruence.
    rewrite !Hfd. rewrite decide_True by reflexivity. split; [reflexivity|].
    intros Hne. rewrite decide_False by exact Hne.
    now rewrite decide_True by reflexivity.
  - intros s sa ca w Hneg. now apply dtor_no_descriptor.
  - intros ops h w Hex Hlog. apply run_closed_once.
    unfold consistent, closed_once. rewrite Hlog.
    split; [exact Hex|]. split.
    + split; constructor.
    + intros j fd _ _. split; apply not_elem_of_nil.
Qed.

End StoreProperties.

(** ** The properties on the sample environments *)

Lemma constructors_throw_witness :
  (exists e w',
     @PassiveSockets.make linux (18888, 18888) 0 (mkGaiAnswer 0 0 [busy; busy]) quiet =
     (Throw e, w')) /\
  (exists e w',
     @Socket.make linux "localhost" (18888, 18888) 0
       (mkGaiAnswer 0 0 [busy; busy]) (mkAnswer 0 0) quiet = (Throw e, w')).
Proof.
  destruct (@constructors_throw linux "localhost" (18888, 18888) 0
              (mkGaiAnswer 0 0 [busy; busy]) (mkAnswer 0 0) quiet) as [Hl Hc].
  split.
  - destruct Hl as (e & w' & Hl & _); [|eauto]. simpl.
    constructor; [right; left; simpl; lia|].
    constructor; [right; left; simpl; lia|]. constructor.
  - destruct Hc as (e & w' & Hc & _); [|eauto]. simpl.
    constructor; [right; simpl; split; [lia | discriminate]|].
    constructor; [right; simpl; split; [lia | discriminate]|]. constructor.
Defined.

Example PassiveSockets_make_free :
  @PassiveSockets.make linux (18888, 18888) 0 (mkGaiAnswer 0 0 [busy; free]) quiet =
  (Ok {| PassiveSockets.fds_ := [4] |},
   {| errno := 98;
      log := [sys_getaddrinfo None 18888; sys_socket 2 1 6; sys_bind 3;
              sys_socket 2 1 6; sys_bind 4; sys_listen 4 256] |}).
Proof. reflexivity. Qed.

Example PassiveSockets_make_busy :
  @PassiveSockets.make linux (18888, 18888) 0 (mkGaiAnswer 0 0 [busy; busy]) quiet =
  (Throw (runtime_error "ERROR: no valid interface"),
   {| errno := 98;
      log := [sys_getaddrinfo None 18888; sys_socket 2 1 6; sys_bind 3;
              sys_socket 2 1 6; sys_bind 3] |}).
Proof. reflexivity. Qed.

Example Socket_connect_free :
  @Socket.make linux "localhost" (18888, 18888) 0
    (mkGaiAnswer 0 0 [busy; free]) (mkAnswer 0 0) quiet =
  (Ok {| Socket.fd_ := 4; Socket.addr := [96; 212; 85; 0]; Socket.addrlen := 16 |},
   {| errno := 111;
      log := [sys_getaddrinfo (Some "localhost"%string) 18888;
              sys_socket 2 1 6; sys_connect 3;
              sys_socket 2 1 6; sys_connect 4; sys_setsockopt 4] |}).
Proof. reflexivity. Qed.

Lemma Socket_accept_failure_witness :
  exists s w',
    @Socket.accept linux 3 2048 nobody (mkAnswer 0 0) quiet = (Ok s, w') /\
    Socket.fd_ s < 0 /\
    log w' = log quiet ++ [sys_accept4 3 2048].
Proof.
  apply (proj1 (@Socket_accept_failure linux 3 2048 nobody (mkAnswer 0 0) quiet
                  ltac:(simpl; lia))).
  left. reflexivity.
Defined.

Example Socket_accept_connection :
  @Socket.accept linux 3 2048 somebody (mkAnswer 0 0) quiet =
  (Ok {| Socket.fd_ := 7; Socket.addr := [127; 0; 0; 1]; Socket.addrlen := 16 |},
   {| errno := 0; log := [sys_accept4 3 2048; sys_setsockopt 7] |}).
Proof. reflexivity. Qed.

(** When [setsockopt] fails on the accepted connection, the exception
    unwinds the stack: the local socket is destroyed and the connection is
    shut down and closed before the caller sees the exception. *)
Example Socket_accept_unwinds :
  @Socket.accept linux 3 2048 somebody (mkAnswer (-1) 9) quiet =
  (Throw (errno_error "Socket.setsockopt.TCP_NODELAY" 9),
   {| errno := 9;
      log := [sys_accept4 3 2048; sys_setsockopt 7; sys_shutdown 7;
              sys_close 7] |}).
Proof. reflexivity. Qed.

(** When the shutdown of that clean-up fails too, the program ends. *)
Example Socket_accept_terminates :
  @Socket.accept linux 3 2048
    {| Socket.accept4_ans := mkAnswer 7 0;
       Socket.peer_addr := [127; 0; 0; 1]; Socket.peer_addrlen := 16;
       Socket.unwind_shutdown_ans := mkAnswer (-1) 107;
       Socket.unwind_close_ans := mkAnswer 0 0 |}
    (mkAnswer (-1) 9) quiet =
  (Terminate,
   {| errno := 107;
      log := [sys_accept4 3 2048; sys_setsockopt 7; sys_shutdown 7] |}).
Proof. reflexivity. Qed.

Lemma one_socket_exclusive : Store.exclusive one_socket.
Proof.
  intros i j fd Hi Hj _.
  destruct i as [|i]; [|discriminate]. destruct j as [|j]; [|discriminate].
  reflexivity.
Qed.

Lemma Socket_moves_close_once_witness :
  (exists h', Store.move_ctor 0 one_socket = Some h' /\
     Store.fd_at h' 0%nat = Some (-1) /\ Store.fd_at h' 1%nat = Some 5) /\
  (exists h', Store.move_assign 0 1 two_sockets = Some h' /\
     Store.fd_at h' 1%nat = Some (-1) /\ Store.fd_at h' 0%nat = Some 6) /\
  Socket.dtor {| Socket.fd_ := -1; Socket.addr := []; Socket.addrlen := 0 |}
    (mkAnswer 0 0) (mkAnswer 0 0) quiet = (Ok (), quiet) /\
  NoDup (Store.closed (log (Store.run there_and_back one_socket quiet))) /\
  NoDup (Store.shut_down (log (Store.run there_and_back one_socket quiet))).
Proof.
  destruct Socket_moves_close_once as (Hctor & Hassign & Hdtor & Hrun).
  split; [|split; [|split]].
  - destruct (Hctor 0%nat one_socket _ eq_refl) as (h' & E & Hfrom & Hto).
    exists h'. split; [exact E|]. split; [exact Hfrom | exact Hto].
  - destruct (Hassign 0%nat 1%nat two_sockets _ _ eq_refl eq_refl)
      as (h' & E & Hfrom & Hto).
    exists h'. split; [exact E|]. split; [exact Hfrom|]. apply Hto. lia.
  - apply Hdtor. simpl. lia.
  - apply Hrun.
    + exact one_socket_exclusive.
    + reflexivity.
Defined.

Example there_and_back_log :
  Store.run there_and_back one_socket quiet =
  {| errno := 0; log := [sys_shutdown 5; sys_close 5] |}.
Proof. reflexivity. Qed.

(** A self-assignment loses the descriptor: it is never closed. *)
Example self_assignment_log :
  Store.run [Store.MoveAssign 0 0;
             Store.Destroy 0 (mkAnswer 0 0) (mkAnswer 0 0)] one_socket quiet =
  quiet.
Proof. reflexivity. Qed.

(** * Further properties *)

(** ** Items: remaining time and refresh *)

Section ItemRefresh.
Import PeerDiscovery.
Local Open Scope Z_scope.

(** X1: on numbers of at most 53 binary digits with the same number of
    digits after the point, the remaining time at [now] after
    [setTTL(t, now)] is the larger of [t] and the remaining time before the
    call. *)
Theorem Item_setTTL_ttl_max (it : Item.t) (t : Z) (now : double) (j N X : Z) :
  0 <= j <= 1022 ->
  dmul now (double_of_Z 1000) = dyadic N j ->
  Item.expiration it = dyadic X j ->
  0 <= N -> 0 <= X < 2 ^ 53 -> 0 <= t -> N + t * 2 ^ j < 2 ^ 53 ->
  exists (it' : Item.t) (r : Z),
    Item.ttl it now = Some r /\
    Item.setTTL t now it = Some it' /\
    Item.ttl it' now = Some (Z.max t r).
Proof.
  intros Hj HN HX HNr HXr Ht Hsum.
  assert (Hpow : 0 < 2 ^ j) by (apply Z.pow_pos_nonneg; lia).
  pose proof (Item_ttl_exact it now j N X Hj HN HX ltac:(nia) HXr) as Httl.
  eexists _, _. split; [exact Httl|].
  split; [apply (Item_setTTL_exact it t now j N X); assumption|].
  destruct (Z.ltb_spec (Z.max 0 ((X - N) / 2 ^ j)) t) as [H|H].
  - rewrite (Item_ttl_exact _ now j N (N + t * 2 ^ j))
      by (assumption || reflexivity || nia).
    f_equal. replace (N + t * 2 ^ j - N) with (t * 2 ^ j) by lia.
    rewrite Z.div_mul by lia. lia.
  - rewrite Httl. f_equal. lia.
Qed.

Lemma Item_setTTL_ttl_max_witness :
  exists (it' : Item.t) (r : Z),
    Item.ttl (Item.make 7 [] 500 november_2023) november_2023 = Some r /\
    Item.setTTL 2000 november_2023 (Item.make 7 [] 500 november_2023) = Some it' /\
    Item.ttl it' november_2023 = Some (Z.max 2000 r).
Proof.
  apply (Item_setTTL_ttl_max (Item.make 7 [] 500 november_2023) 2000
           november_2023 12 6963200000505679 (6963200000505679 + 500 * 2 ^ 12));
    [lia | reflexivity | reflexivity | lia ..].
Defined.

(** X2: on such numbers, two refreshes at the same time amount to one
    refresh with the larger TTL; so refreshes at one time commute, and a
    repeated refresh changes nothing. *)
Theorem Item_setTTL_twice (it : Item.t) (t1 t2 : Z) (now : double) (j N X : Z) :
  0 <= j <= 1022 ->
  dmul now (double_of_Z 1000) = dyadic N j ->
  Item.expiration it = dyadic X j ->
  0 <= N -> 0 <= X < 2 ^ 53 ->
  0 <= t1 -> N + t1 * 2 ^ j < 2 ^ 53 -> 0 <= t2 -> N + t2 * 2 ^ j < 2 ^ 53 ->
  is_Some (Item.setTTL (Z.max t1 t2) now it) /\
  Item.setTTL t2 now it ≫= Item.setTTL t1 now =
    Item.setTTL (Z.max t1 t2) now it /\
  Item.setTTL t2 now it ≫= Item.setTTL t1 now =
    Item.setTTL t1 now it ≫= Item.setTTL t2 now /\
  Item.setTTL t1 now it ≫= Item.setTTL t1 now = Item.setTTL t1 now it.
Proof.
  intros Hj HN HX HNr HXr Ht1 Hs1 Ht2 Hs2.
  assert (Hpow : 0 < 2 ^ j) by (apply Z.pow_pos_nonneg; lia).
  assert (Hmax : forall a b,
    0 <= a -> N + a * 2 ^ j < 2 ^ 53 -> 0 <= b -> N + b * 2 ^ j < 2 ^ 53 ->
    Item.setTTL b now it ≫= Item.setTTL a now = Item.setTTL (Z.max a b) now it).
  { intros a b Ha Hsa Hb Hsb.
    assert (Hsm : N + Z.max a b * 2 ^ j < 2 ^ 53)
      by (destruct (Z.max_spec a b) as [[_ ->]|[_ ->]]; assumption).
    rewrite (Item_setTTL_exact it b now j N X) by assumption.
    rewrite (Item_setTTL_exact it (Z.max a b) now j N X) by (assumption || lia).
    cbn [mbind option_bind].
    pose proof (ttl_guard j N X a ltac:(lia) Ha) as Hga.
    pose proof (ttl_guard j N X b ltac:(lia) Hb) as Hgb.
    destruct (Z.ltb_spec (Z.max 0 ((X - N) / 2 ^ j)) b) as [Hlb|Hlb].
    - rewrite (Item_setTTL_exact _ a now j N (N + b * 2 ^ j))
        by (assumption || reflexivity || nia).
      replace (N + b * 2 ^ j - N) with (b * 2 ^ j) by lia.
      rewrite Z.div_mul by lia. cbn [Item.id Item.addrs].
      destruct (Z.ltb_spec (Z.max 0 ((X - N) / 2 ^ j)) (Z.max a b)); [|lia].
      destruct (Z.ltb_spec (Z.max 0 b) a).
      + now rewrite Z.max_l by lia.
      + now rewrite Z.max_r by lia.
    - rewrite (Item_setTTL_exact it a now j N X) by assumption.
      destruct (Z.ltb_spec (Z.max 0 ((X - N) / 2 ^ j)) a);
        destruct (Z.ltb_spec (Z.max 0 ((X - N) / 2 ^ j)) (Z.max a b));
        try lia; [|reflexivity].
      now rewrite Z.max_l by lia. }
  split; [|split; [|split]].
  - rewrite (Item_setTTL_exact it (Z.max t1 t2) now j N X); [eauto|try assumption..].
    + lia.
    + destruct (Z.max_spec t1 t2) as [[_ ->]|[_ ->]]; assumption.
  - now apply Hmax.
  - rewrite !Hmax by assumption. now rewrite Z.max_comm.
  - rewrite Hmax by assumption. now rewrite Z.max_id.
Qed.

Lemma Item_setTTL_twice_witness :
  Item.setTTL 300 november_2023 (Item.make 7 [] 500 november_2023)
    ≫= Item.setTTL 2000 november_2023 =
  Item.setTTL (Z.max 2000 300) november_2023 (Item.make 7 [] 500 november_2023).
Proof.
  apply (Item_setTTL_twice (Item.make 7 [] 500 november_2023) 2000 300
           november_2023 12 6963200000505679 (6963200000505679 + 500 * 2 ^ 12));
    [lia | reflexivity | reflexivity | lia ..].
Defined.

(** X3: on such numbers, the remaining time of an item does not grow as time
    passes. *)
Theorem Item_ttl_antitone (it : Item.t) (now1 now2 : double) (j N1 N2 X : Z) :
  0 <= j <= 1022 ->
  dmul now1 (double_of_Z 1000) = dyadic N1 j ->
  dmul now2 (double_of_Z 1000) = dyadic N2 j ->
  Item.expiration it = dyadic X j ->
  0 <= N1 -> N1 <= N2 -> N2 < 2 ^ 53 -> 0 <= X < 2 ^ 53 ->
  exists r1 r2 : Z,
    Item.ttl it now1 = Some r1 /\ Item.ttl it now2 = Some r2 /\ r2 <= r1.
Proof.
  intros Hj H1 H2 HX HN1 Hle HN2 HXr.
  assert (Hpow : 0 < 2 ^ j) by (apply Z.pow_pos_nonneg; lia).
  eexists _, _.
  split; [apply (Item_ttl_exact it now1 j N1 X); (assumption || lia)|].
  split; [apply (Item_ttl_exact it now2 j N2 X); (assumption || lia)|].
  apply Z.max_le_compat_l. apply Z.div_le_mono; lia.
Qed.

Lemma Item_ttl_antitone_witness :
  exists r1 r2 : Z,
    Item.ttl (Item.make 7 [] 500 (double_of_Z 1)) (double_of_Z 1) = Some r1 /\
    Item.ttl (Item.make 7 [] 500 (double_of_Z 1)) (dyadic 5 2) = Some r2 /\
    r2 <= r1.
Proof.
  apply (Item_ttl_antitone (Item.make 7 [] 500 (double_of_Z 1))
           (double_of_Z 1) (dyadic 5 2) 0 1000 1250 1500);
    [lia | reflexivity | reflexivity | reflexivity | lia ..].
Defined.

(** X4: on such numbers, [ttl] reports the whole milliseconds that remain:
    it is 0 exactly when less than one millisecond remains, and for an item
    that has not expired it is at most the remaining time and more than the
    remaining time less one millisecond. *)
Theorem Item_ttl_bounds (it : Item.t) (now : double) (j N X : Z) :
  0 <= j <= 1022 ->
  dmul now (double_of_Z 1000) = dyadic N j ->
  Item.expiration it = dyadic X j ->
  0 <= N < 2 ^ 53 -> 0 <= X < 2 ^ 53 ->
  exists r : Z,
    Item.ttl it now = Some r /\
    (r = 0 <-> X < N + 2 ^ j) /\
    (N <= X -> r * 2 ^ j <= X - N < (r + 1) * 2 ^ j).
Proof.
  intros Hj HN HX HNr HXr.
  assert (Hpow : 0 < 2 ^ j) by (apply Z.pow_pos_nonneg; lia).
  eexists. split; [apply (Item_ttl_exact it now j N X); assumption|].
  pose proof (ttl_guard j N X 1 ltac:(lia) ltac:(lia)) as [Hg1 Hg2].
  split.
  - split; intros H; [destruct Hg1; lia|].
    assert (Z.max 0 ((X - N) / 2 ^ j) < 1) by (apply Hg2; lia). lia.
  - intros Hle.
    assert (0 <= (X - N) / 2 ^ j) by (apply Z.div_pos; lia).
    rewrite Z.max_r by lia.
    pose proof (Z.mul_div_le (X - N) (2 ^ j) Hpow).
    pose proof (Z.mul_succ_div_gt (X - N) (2 ^ j) Hpow). lia.
Qed.

Lemma Item_ttl_bounds_witness :
  exists r : Z,
    Item.ttl {| Item.id := 0; Item.addrs := [];
                Item.expiration := dyadic 2001 1 |} (double_of_Z 0) = Some r /\
    (0 <= 2001 -> r * 2 ^ 1 <= 2001 - 0 < (r + 1) * 2 ^ 1).
Proof.
  destruct (Item_ttl_bounds {| Item.id := 0; Item.addrs := [];
                               Item.expiration := dyadic 2001 1 |}
              (double_of_Z 0) 1 0 2001)
    as (r & Hr & _ & Hb); [lia | reflexivity | reflexivity | lia | lia |].
  exists r. split; [exact Hr | exact Hb].
Defined.

End ItemRefresh.

(** ** Connections: pending fetches *)

Section PendingFetches.
Import PeerDiscovery.
Local Open Scope Z_scope.

(** The calls [c.fetch(key, keyId)] for the pairs of a list, in order. *)
Lemma ConnState_fetch_all_fields (items : list FetchItem) (c : ConnState.t) :
  let c' := foldl (fun c item => ConnState.fetch item.1 item.2 c) c items in
  ConnState.pendingFetch c' = ConnState.pendingFetch c ++ items /\
  ConnState.isFetch c' = (ConnState.isFetch c || negb (bool_decide (items = []))) /\
  ConnState.version c' = ConnState.version c /\
  ConnState.fd c' = ConnState.fd c /\ ConnState.id c' = ConnState.id c /\
  ConnState.nodeId c' = ConnState.nodeId c.
Proof.
  revert c. induction items as [|[key keyId] rest IH]; intros c; simpl.
  - rewrite app_nil_r, orb_false_r. repeat split.
  - destruct (IH (ConnState.fetch key keyId c)) as (Hp & Hf & Hv & Hfd & Hid & Hn).
    simpl in *. rewrite Hp, Hf, Hv, Hfd, Hid, Hn, <- app_assoc.
    rewrite orb_true_r. repeat split.
Qed.

(** X5: fetches asked on a connection are queued in the order of the calls
    behind those already pending, the connection is marked as a fetch
    connection by the first call, and the calls change neither its version,
    and so whether it is initialized, nor its descriptor and identifiers. *)
Theorem ConnState_fetch_queue (items : list FetchItem) (c : ConnState.t) :
  let c' := foldl (fun c item => ConnState.fetch item.1 item.2 c) c items in
  ConnState.pendingFetch c' = ConnState.pendingFetch c ++ items /\
  (items <> [] -> ConnState.isFetch c' = true) /\
  (items = [] -> c' = c) /\
  ConnState.initialized c' = ConnState.initialized c /\
  ConnState.fd c' = ConnState.fd c /\ ConnState.id c' = ConnState.id c /\
  ConnState.nodeId c' = ConnState.nodeId c.
Proof.
  destruct (ConnState_fetch_all_fields items c) as (Hp & Hf & Hv & Hfd & Hid & Hn).
  cbv zeta. split; [exact Hp|]. split; [|split].
  - intros Hne. rewrite Hf, bool_decide_eq_false_2 by exact Hne.
    apply orb_true_r.
  - intros ->. reflexivity.
  - unfold ConnState.initialized. rewrite Hv. repeat split; assumption.
Qed.

Lemma ConnState_fetch_queue_witness :
  ConnState.isFetch
    (foldl (fun c item => ConnState.fetch item.1 item.2 c)
       (ConnState.mk 3 1 0 0 false []) [("svc"%string, 7); ("web"%string, 9)]) = true.
Proof.
  apply (ConnState_fetch_queue [("svc"%string, 7); ("web"%string, 9)]
           (ConnState.mk 3 1 0 0 false [])).
  discriminate.
Defined.

End PendingFetches.

(** ** Watches: a new handle *)

Section WatchInsertion.
Import PeerDiscovery.
Context {WatchFn : Type}.
Implicit Types (w x y : Watch.t WatchFn) (s : list (Watch.t WatchFn)).
Implicit Types (watches : gmap string (list (Watch.t WatchFn))).

(** [insert] keeps the watches of the set. *)
Lemma Watch_insert_keeps w s x :
  x ∈ s -> x ∈ (StdSet.insert Watch.lt w s).1.
Proof.
  induction s as [|y r IH]; simpl; [intros H; inversion H|].
  intros Hx. destruct (Watch.lt w y); simpl; [now right|].
  destruct (Watch.lt y w); simpl; [|exact Hx].
  destruct (StdSet.insert Watch.lt w r) as [r' b]. simpl in *.
  apply elem_of_cons in Hx as [->|Hx]; [left | right; now apply IH].
Qed.

Lemma Watch_insert_length w s :
  length (StdSet.insert Watch.lt w s).1 =
  (if (StdSet.insert Watch.lt w s).2 then S (length s) else length s).
Proof.
  induction s as [|y r IH]; simpl; [reflexivity|].
  destruct (Watch.lt w y); simpl; [reflexivity|].
  destruct (Watch.lt y w); simpl; [|reflexivity].
  destruct (StdSet.insert Watch.lt w r) as [r' b]. simpl in *.
  rewrite IH. now destruct b.
Qed.

(** X6: the insertion of a watch whose handle is new to the set of its key
    takes place: the set of the key then holds the watch and the watches it
    held before and nothing else, one watch more than before, and the map
    stays well formed; a key without a set gets the set of that one watch. *)
Theorem watches_insert_new_handle key w watches :
  watches_wf watches ->
  (forall x, x ∈ default [] (watches !! key) ->
             Watch.handle x <> Watch.handle w) ->
  exists s',
    watches_insert key w watches !! key = Some s' /\
    StdSet.insert Watch.lt w (default [] (watches !! key)) = (s', true) /\
    (forall x, x ∈ s' <-> x = w \/ x ∈ default [] (watches !! key)) /\
    length s' = S (length (default [] (watches !! key))) /\
    (watches !! key = None -> s' = [w]) /\
    (forall k, k <> key -> watches_insert key w watches !! k = watches !! k) /\
    watches_wf (watches_insert key w watches).
Proof.
  intros Hwf Hnew. set (s := default [] (watches !! key)) in *.
  destruct (Watch_insert_absent w s Hnew) as [Hb Hin].
  pose proof (Watch_insert_length w s) as Hlen.
  pose proof (Watch_insert_elem w s) as Hel.
  pose proof (fun x => Watch_insert_keeps w s x) as Hkeep.
  assert (Hnone : watches !! key = None -> (StdSet.insert Watch.lt w s).1 = [w]).
  { intros E. unfold s. now rewrite E. }
  exists (StdSet.insert Watch.lt w s).1.
  split; [unfold watches_insert; fold s; apply lookup_insert_eq|].
  destruct (StdSet.insert Watch.lt w s) as [s' b]. simpl in *. subst b.
  split; [reflexivity|]. split.
  { intros x. split; [apply Hel|]. intros [->|Hx]; [exact Hin | now apply Hkeep]. }
  split; [exact Hlen|]. split; [exact Hnone|]. split.
  - intros k Hk. unfold watches_insert. now rewrite lookup_insert_ne.
  - now apply watches_wf_insert.
Qed.

End WatchInsertion.

Lemma watches_insert_new_handle_witness :
  exists s' : list (PeerDiscovery.Watch.t nat),
    PeerDiscovery.watches_insert "svc" (PeerDiscovery.Watch.make 9 (Some 2%nat))
      (PeerDiscovery.watches_insert "svc"
         (PeerDiscovery.Watch.make 7 (Some 1%nat)) ∅) !! "svc"%string = Some s' /\
    length s' = 2%nat.
Proof.
  destruct (watches_insert_new_handle (WatchFn := nat) "svc"
              (PeerDiscovery.Watch.make 9 (Some 2%nat))
              (PeerDiscovery.watches_insert "svc"
                 (PeerDiscovery.Watch.make 7 (Some 1%nat)) ∅))
    as (s' & Hs & _ & _ & Hlen & _).
  - apply watches_wf_insert, watches_wf_empty.
  - intros x Hx. apply list_elem_of_singleton in Hx. subst x. discriminate.
  - exists s'. split; [exact Hs | exact Hlen].
Defined.

(** ** Sockets: the constructors *)

Section SocketConstruction.
Context {platform : Platform}.
Local Open Scope Z_scope.

(** The socket that the connecting constructor builds on an interface. *)
Lemma connect_loop_skip flags pre s w :
  Forall cannot_connect pre ->
  exists w1, forall rest,
    Socket.connect_loop flags (pre ++ rest) s w =
    Socket.connect_loop flags rest s w1.
Proof.
  intros Hall. revert w. induction Hall as [|it pre Hit _ IH]; intros w.
  - exists w. reflexivity.
  - simpl. unfold mbind, M_bind, syscall, get_errno. simpl.
    destruct (Z.ltb_spec (ret (socket_ans it)) 0) as [Hs|Hs]; [apply IH|].
    destruct Hit as [Hit|[Hc He]]; [lia|].
    apply Z.ltb_lt in Hc. rewrite Hc. simpl.
    destruct (Z.eqb_spec (err (connect_ans it)) EINPROGRESS); [contradiction|].
    simpl. apply IH.
Qed.

Lemma connect_loop_hit flags it post s w :
  can_connect it ->
  exists w1 l,
    Socket.connect_loop flags (it :: post) s w =
    (Ok {| Socket.fd_ := ret (socket_ans it); Socket.addr := ai_addr_member (ai it);
           Socket.addrlen := ai_addrlen (ai it) |}, w1) /\
    log w1 = l ++ [sys_connect (ret (socket_ans it))] /\
    Socket.connect_loop flags (it :: post) s w =
    Socket.connect_loop flags [it] s w.
Proof.
  intros [Hs Hc]. simpl. unfold mbind, M_bind, syscall, get_errno. simpl.
  destruct (Z.ltb_spec (ret (socket_ans it)) 0) as [Hs'|_]; [lia|].
  destruct (Z.ltb_spec (ret (connect_ans it)) 0) as [Hneg|Hpos]; simpl.
  - destruct Hc as [Hc|Hc]; [lia|]. rewrite Hc, Z.eqb_refl. simpl.
    unfold mret, M_ret. eexists _, _. split; [reflexivity|].
    split; reflexivity.
  - unfold mret, M_ret. eexists _, _. split; [reflexivity|].
    split; reflexivity.
Qed.

(** What the loop returns: the socket it was given, when no interface can be
    connected to, and else the socket on the first one that can. *)
Lemma connect_loop_result flags its s0 w r w' :
  Socket.connect_loop flags its s0 w = (r, w') ->
  (r = Ok s0 /\ Forall cannot_connect its) \/
  (exists pre it post l,
     its = pre ++ it :: post /\ Forall cannot_connect pre /\ can_connect it /\
     r = Ok {| Socket.fd_ := ret (socket_ans it); Socket.addr := ai_addr_member (ai it);
               Socket.addrlen := ai_addrlen (ai it) |} /\
     log w' = l ++ [sys_connect (ret (socket_ans it))]).
Proof.
  revert w. induction its as [|it rest IH]; intros w.
  - simpl. unfold mret, M_ret. intros [= <- <-]. left. split; constructor.
  - assert (Hdec : cannot_connect it \/ can_connect it).
    { unfold cannot_connect, can_connect.
      destruct (Z.eq_dec (err (connect_ans it)) EINPROGRESS); lia. }
    destruct Hdec as [Hno|Hyes].
    + destruct (connect_loop_skip flags [it] s0 w) as [w1 Hskip];
        [constructor; [exact Hno | constructor]|].
      change (it :: rest) with ([it] ++ rest).
      rewrite (Hskip rest). intros H.
      destruct (IH _ H) as [[-> Hall]|(pre & it' & post & l & -> & Hpre & Hit & -> & Hl)].
      * left. split; [reflexivity | now constructor].
      * right. exists (it :: pre), it', post, l.
        split; [reflexivity|]. split; [now constructor|]. auto.
    + destruct (connect_loop_hit flags it rest s0 w Hyes) as (w1 & l & -> & Hl & _).
      intros [= <- <-]. right. exists [], it, rest, l.
      split; [reflexivity|]. split; [constructor|]. auto.
Qed.

(** X7: a failed look-up of the interfaces makes both constructors throw
    before any socket is made: [getaddrinfo] is the only call, and the
    exception carries [errno] when the failure is [EAI_SYSTEM] and the code
    of the failure otherwise. *)
Theorem constructors_lookup_failure (host : string) (ports : Port * Port)
    (flags : Z) (gai : GaiAnswer) (setsockopt_ans : Answer) (w : World) :
  gai_ret gai <> 0 ->
  let e := if gai_ret gai =? EAI_SYSTEM
           then errno_error "InterfaceIt.getaddrinfo" (gai_errno gai)
           else logic_error ("error: " +:+ pretty (gai_ret gai)) in
  (exists w', PassiveSockets.make ports flags gai w = (Throw e, w') /\
              log w' = log w ++ [sys_getaddrinfo None (fst ports)]) /\
  (exists w', Socket.make host ports flags gai setsockopt_ans w = (Throw e, w') /\
              log w' = log w ++ [sys_getaddrinfo (Some host) (fst ports)]).
Proof.
  intros Hret. cbv zeta.
  unfold PassiveSockets.make, Socket.make, InterfaceIt, mbind, M_bind.
  destruct (Z.eqb_spec (gai_ret gai) 0) as [E|_]; [contradiction|]. simpl.
  unfold SLICK_CHECK_ERRNO, throw.
  destruct (gai_ret gai =? EAI_SYSTEM); simpl;
    split; eexists; split; reflexivity.
Qed.

(** X8: the connecting constructor takes the first interface to which a
    connection is made or is in progress, whatever comes after it in the
    list, and returns a socket on it once [setsockopt] has succeeded.  The
    socket holds the descriptor and the address length of that interface;
    its [addr] holds the bytes of the entry from the member [ai_addr] on,
    which are those of the pointer and not those of the address. *)
Theorem Socket_make_first (host : string) (ports : Port * Port) (flags : Z)
    (gai : GaiAnswer) (setsockopt_ans : Answer) (w : World)
    (pre post : list Interface) (it : Interface) :
  gai_ret gai = 0 -> gai_list gai = pre ++ it :: post ->
  Forall cannot_connect pre -> can_connect it -> ret setsockopt_ans = 0 ->
  (exists w',
     Socket.make host ports flags gai setsockopt_ans w =
     (Ok {| Socket.fd_ := ret (socket_ans it); Socket.addr := ai_addr_member (ai it);
            Socket.addrlen := ai_addrlen (ai it) |}, w')) /\
  Socket.make host ports flags gai setsockopt_ans w =
  Socket.make host ports flags
    {| gai_ret := gai_ret gai; gai_errno := gai_errno gai;
       gai_list := pre ++ [it] |} setsockopt_ans w.
Proof.
  intros Hret Hlist Hpre Hit Hsa.
  unfold Socket.make, InterfaceIt, mbind, M_bind. rewrite Hret. simpl.
  rewrite Hlist.
  set (w0 := {| errno := _; log := _ |}).
  set (s0 := {| Socket.fd_ := -1; Socket.addr := []; Socket.addrlen := 0 |}).
  destruct (connect_loop_skip flags pre s0 w0 Hpre) as [w1 Hskip].
  rewrite !Hskip.
  destruct (connect_loop_hit flags it post s0 w1 Hit) as (w2 & l & Hhit & _ & Hsame).
  rewrite <- Hsame, Hhit. simpl.
  destruct Hit as [Hfd _].
  destruct (Z.ltb_spec (ret (socket_ans it)) 0) as [Hneg|_]; [lia|].
  split; [|reflexivity].
  unfold Socket.init, mbind, M_bind, syscall, SLICK_CHECK_ERRNO. simpl.
  rewrite Hsa. simpl. unfold mret, M_ret. eauto.
Qed.

(** X9: a socket that the connecting constructor returns holds the
    descriptor and the address length of the first interface to which a
    connection is made or is in progress, and in [addr] the bytes of the
    entry from the member [ai_addr] on; [setsockopt] has succeeded on it,
    and the last two calls were [connect] and [setsockopt] on its
    descriptor, which is not negative. *)
Theorem Socket_make_returned (host : string) (ports : Port * Port) (flags : Z)
    (gai : GaiAnswer) (setsockopt_ans : Answer) (w w' : World) (s : Socket.t) :
  Socket.make host ports flags gai setsockopt_ans w = (Ok s, w') ->
  gai_ret gai = 0 /\ ret setsockopt_ans = 0 /\ 0 <= Socket.fd_ s /\
  (exists pre it post,
     gai_list gai = pre ++ it :: post /\
     Forall cannot_connect pre /\ can_connect it /\
     s = {| Socket.fd_ := ret (socket_ans it); Socket.addr := ai_addr_member (ai it);
            Socket.addrlen := ai_addrlen (ai it) |}) /\
  (exists l, log w' = l ++ [sys_connect (Socket.fd_ s);
                            sys_setsockopt (Socket.fd_ s)]).
Proof.
  unfold Socket.make, InterfaceIt, mbind, M_bind.
  destruct (Z.eqb_spec (gai_ret gai) 0) as [Hret|Hret]; simpl.
  2:{ unfold SLICK_CHECK_ERRNO, throw.
      destruct (negb (gai_ret gai =? EAI_SYSTEM)); discriminate. }
  set (w0 := {| errno := _; log := _ |}).
  set (s0 := {| Socket.fd_ := -1; Socket.addr := []; Socket.addrlen := 0 |}).
  destruct (Socket.connect_loop flags (gai_list gai) s0 w0) as [r w1] eqn:Hloop.
  apply connect_loop_result in Hloop
    as [[-> _]|(pre & it & post & l & Hlist & Hpre & Hit & -> & Hl)].
  - simpl. unfold throw. discriminate.
  - pose proof Hit as [Hfd _]. simpl.
    destruct (Z.ltb_spec (ret (socket_ans it)) 0) as [Hneg|_]; [lia|].
    unfold Socket.init, mbind, M_bind, syscall, SLICK_CHECK_ERRNO. simpl.
    destruct (Z.eqb_spec (ret setsockopt_ans) 0) as [Hsa|Hsa]; [|discriminate].
    unfold mret, M_ret. intros [= <- <-]. simpl.
    split; [exact Hret|]. split; [exact Hsa|]. split; [exact Hfd|].
    split; [exists pre, it, post; auto|].
    exists l. rewrite Hl, <- app_assoc. reflexivity.
Qed.

End SocketConstruction.

Lemma constructors_lookup_failure_witness :
  exists w',
    @PassiveSockets.make linux (18888, 18888) 0 (mkGaiAnswer (-2) 0 []) quiet =
    (Throw (logic_error "error: -2"), w') /\
    log w' = [sys_getaddrinfo None 18888].
Proof.
  apply (@constructors_lookup_failure linux "localhost" (18888, 18888) 0
           (mkGaiAnswer (-2) 0 []) (mkAnswer 0 0) quiet).
  discriminate.
Defined.

Lemma Socket_make_first_witness :
  exists w',
    @Socket.make linux "localhost" (18888, 18888) 0
      (mkGaiAnswer 0 0 [busy; free; busy]) (mkAnswer 0 0) quiet =
    (Ok {| Socket.fd_ := 4; Socket.addr := [96; 212; 85; 0];
           Socket.addrlen := 16 |}, w').
Proof.
  apply (@Socket_make_first linux "localhost" (18888, 18888) 0
           (mkGaiAnswer 0 0 [busy; free; busy]) (mkAnswer 0 0) quiet
           [busy] [busy] free).
  - reflexivity.
  - reflexivity.
  - constructor; [|constructor]. right. simpl. split; [lia | discriminate].
  - split; simpl; lia.
  - reflexivity.
Defined.

Lemma Socket_make_returned_witness :
  exists l,
    log (snd (@Socket.make linux "localhost" (18888, 18888) 0
                (mkGaiAnswer 0 0 [busy; free]) (mkAnswer 0 0) quiet)) =
    l ++ [sys_connect 4; sys_setsockopt 4].
Proof.
  eapply (@Socket_make_returned linux "localhost" (18888, 18888) 0
            (mkGaiAnswer 0 0 [busy; free]) (mkAnswer 0 0) quiet _
            {| Socket.fd_ := 4; Socket.addr := [96; 212; 85; 0];
               Socket.addrlen := 16 |}).
  reflexivity.
Defined.

(** ** Sockets: accepting, destruction and passive sockets *)

Section SocketLifetime.
Context {platform : Platform}.
Local Open Scope Z_scope.

(** X10: a socket that [accept] returns holds what [accept4] returned.  If
    its descriptor is negative, [accept4] failed with [EAGAIN] or
    [EWOULDBLOCK] and was the only call; if it is not negative,
    [setsockopt] was called on it next and succeeded. *)
Theorem Socket_accept_returned (fd flags : Z) (a : Socket.AcceptAnswer)
    (setsockopt_ans : Answer) (w w' : World) (s : Socket.t) :
  Socket.accept fd flags a setsockopt_ans w = (Ok s, w') ->
  s = {| Socket.fd_ := ret (Socket.accept4_ans a);
         Socket.addr := Socket.peer_addr a;
         Socket.addrlen := Socket.peer_addrlen a |} /\
  (Socket.fd_ s < 0 ->
   (err (Socket.accept4_ans a) = EAGAIN \/
    err (Socket.accept4_ans a) = EWOULDBLOCK) /\
   log w' = log w ++ [sys_accept4 fd flags]) /\
  (0 <= Socket.fd_ s ->
   ret setsockopt_ans = 0 /\ errno w' = errno w /\
   log w' = log w ++ [sys_accept4 fd flags; sys_setsockopt (Socket.fd_ s)]).
Proof.
  unfold Socket.accept, mbind, M_bind, syscall, get_errno. simpl.
  destruct (Z.ltb_spec (ret (Socket.accept4_ans a)) 0) as [Hneg|Hpos]; simpl.
  - destruct ((err (Socket.accept4_ans a) =? EAGAIN)
              || (err (Socket.accept4_ans a) =? EWOULDBLOCK)) eqn:E.
    + unfold mret, M_ret. intros [= <- <-]. simpl.
      split; [reflexivity|]. split; [|lia].
      intros _. split; [|reflexivity].
      apply orb_true_iff in E. rewrite !Z.eqb_eq in E. exact E.
    + unfold unwinding, mbind, M_bind, SLICK_CHECK_ERRNO.
      destruct (Z.leb_spec 0 (ret (Socket.accept4_ans a))); [lia|].
      rewrite dtor_no_descriptor by exact Hneg. discriminate.
  - unfold unwinding, mbind, M_bind, SLICK_CHECK_ERRNO.
    destruct (Z.leb_spec 0 (ret (Socket.accept4_ans a))) as [_|Hlt]; [|lia].
    unfold Socket.init, mbind, M_bind, syscall, SLICK_CHECK_ERRNO. simpl.
    destruct (Z.eqb_spec (ret setsockopt_ans) 0) as [Hsa|Hsa].
    2:{ destruct (Socket.dtor _ _ _ _) as [[[]|e|] w'']; discriminate. }
    unfold mret, M_ret. intros [= <- <-]. simpl.
    split; [reflexivity|]. split; [lia|].
    intros _. split; [exact Hsa|].
    assert (Hz : (ret setsockopt_ans <? 0) = false) by (apply Z.ltb_ge; lia).
    rewrite Hz, <- app_assoc. split; reflexivity.
Qed.

(** X11: the destructor of a socket with a descriptor that is not negative
    shuts the descriptor down and closes it only if the shut-down has
    succeeded; it returns exactly when both calls have succeeded, and when
    one of them fails the program ends in [std::terminate]: no exception
    leaves the destructor. *)
Theorem Socket_dtor_calls (s : Socket.t) (shutdown_ans close_ans : Answer)
    (w : World) :
  0 <= Socket.fd_ s ->
  exists r w',
    Socket.dtor s shutdown_ans close_ans w = (r, w') /\
    log w' = log w ++
             sys_shutdown (Socket.fd_ s) ::
             (if ret shutdown_ans =? 0 then [sys_close (Socket.fd_ s)] else []) /\
    (r = Ok () <-> ret shutdown_ans = 0 /\ ret close_ans = 0) /\
    (r = Terminate <-> ret shutdown_ans <> 0 \/ ret close_ans <> 0).
Proof.
  intros Hfd. unfold Socket.dtor, noexcept.
  destruct (Z.ltb_spec (Socket.fd_ s) 0) as [Hneg|_]; [lia|].
  unfold mbind, M_bind, syscall, SLICK_CHECK_ERRNO. simpl.
  destruct (Z.eqb_spec (ret shutdown_ans) 0) as [Hs|Hs]; simpl.
  - destruct (Z.eqb_spec (ret close_ans) 0) as [Hc|Hc]; simpl;
      eexists _, _; (split; [reflexivity|]); simpl; rewrite <- app_assoc;
      (split; [reflexivity|]); split; split;
      try discriminate; try tauto.
  - eexists _, _. split; [reflexivity|]. simpl. split; [reflexivity|].
    split; split; try discriminate; tauto.
Qed.

(** X19: when [setsockopt] fails on a connection that [accept4] has
    returned, [accept] returns no socket.  The stack is unwound: the local
    socket is destroyed, so the connection is shut down and, if that
    succeeds, closed.  The exception of [init] reaches the caller when both
    calls succeed; otherwise the program ends in [std::terminate]. *)
Theorem Socket_accept_init_failure (fd flags : Z) (a : Socket.AcceptAnswer)
    (setsockopt_ans : Answer) (w : World) :
  0 <= ret (Socket.accept4_ans a) -> ret setsockopt_ans <> 0 ->
  exists r w',
    Socket.accept fd flags a setsockopt_ans w = (r, w') /\
    log w' = log w ++
             [sys_accept4 fd flags;
              sys_setsockopt (ret (Socket.accept4_ans a));
              sys_shutdown (ret (Socket.accept4_ans a))] ++
             (if ret (Socket.unwind_shutdown_ans a) =? 0
              then [sys_close (ret (Socket.accept4_ans a))] else []) /\
    (forall s, r <> Ok s) /\
    (ret (Socket.unwind_shutdown_ans a) = 0 ->
     ret (Socket.unwind_close_ans a) = 0 ->
     r = Throw (errno_error "Socket.setsockopt.TCP_NODELAY"
                  (if ret setsockopt_ans <? 0 then err setsockopt_ans
                   else errno w))) /\
    (ret (Socket.unwind_shutdown_ans a) <> 0 \/
     ret (Socket.unwind_close_ans a) <> 0 -> r = Terminate).
Proof.
  intros Hfd Hsa.
  unfold Socket.accept, mbind, M_bind, syscall, get_errno. simpl.
  destruct (Z.ltb_spec (ret (Socket.accept4_ans a)) 0) as [Hneg|_]; [lia|].
  simpl. unfold unwinding, mbind, M_bind, SLICK_CHECK_ERRNO.
  destruct (Z.leb_spec 0 (ret (Socket.accept4_ans a))) as [_|Hlt]; [|lia].
  unfold Socket.init, mbind, M_bind, syscall, SLICK_CHECK_ERRNO. simpl.
  destruct (Z.eqb_spec (ret setsockopt_ans) 0) as [E|_]; [contradiction|].
  unfold Socket.dtor, noexcept. simpl.
  destruct (Z.ltb_spec (ret (Socket.accept4_ans a)) 0) as [Hneg|_]; [lia|].
  unfold mbind, M_bind, syscall, SLICK_CHECK_ERRNO. simpl.
  destruct (Z.eqb_spec (ret (Socket.unwind_shutdown_ans a)) 0) as [Hs|Hs];
    simpl.
  - destruct (Z.eqb_spec (ret (Socket.unwind_close_ans a)) 0) as [Hc|Hc];
      simpl; eexists _, _; (split; [reflexivity|]); simpl;
      rewrite <- !app_assoc; (split; [reflexivity|]);
      (split; [discriminate|]); split; try reflexivity; try tauto;
      intros; try contradiction; try reflexivity.
  - eexists _, _. split; [reflexivity|]. simpl. rewrite <- !app_assoc.
    split; [reflexivity|]. split; [discriminate|].
    split; [intros; contradiction | reflexivity].
Qed.

(** The calls of the loop of the [PassiveSockets] constructor. *)
Lemma listen_loop_log flags its fds w :
  exists w',
    PassiveSockets.listen_loop flags its fds w = (Ok (fds ++ listening its), w') /\
    log w' = log w ++ concat (listen_calls flags <$> its).
Proof.
  revert fds w. induction its as [|it rest IH]; intros fds w.
  - simpl. rewrite !app_nil_r. unfold mret, M_ret. eauto.
  - cbn [PassiveSockets.listen_loop fmap list_fmap concat].
    unfold listening. cbn [omap list_omap]. fold (listening rest).
    unfold listen_calls at 1.
    unfold mbind at 1, M_bind at 1, syscall at 1. cbn [ret fst snd log errno].
    destruct (ret (socket_ans it) <? 0) eqn:Es; cbn [orb].
    { destruct (IH fds {| errno := err (socket_ans it);
                          log := log w ++ [sys_socket (ai_family (ai it))
                                   (Z.lor (ai_socktype (ai it)) flags)
                                   (ai_protocol (ai it))] |}) as (w' & -> & Hl).
      exists w'. split; [reflexivity|]. rewrite Hl. cbn [log].
      now rewrite <- app_assoc. }
    unfold mbind at 1, M_bind at 1, syscall at 1. cbn [ret fst snd log errno].
    destruct (ret (bind_ans it) <? 0) eqn:Eb; cbn [orb].
    { destruct (IH fds {| errno := err (bind_ans it);
                          log := (log w ++ [sys_socket (ai_family (ai it))
                                   (Z.lor (ai_socktype (ai it)) flags)
                                   (ai_protocol (ai it))]) ++
                                 [sys_bind (ret (socket_ans it))] |})
        as (w' & -> & Hl).
      exists w'. split; [reflexivity|]. rewrite Hl. cbn [log].
      now rewrite <- !app_assoc. }
    unfold mbind at 1, M_bind at 1, syscall at 1. cbn [ret fst snd log errno].
    destruct (ret (listen_ans it) <? 0) eqn:El.
    { destruct (IH fds {| errno := err (listen_ans it);
                          log := ((log w ++ [sys_socket (ai_family (ai it))
                                   (Z.lor (ai_socktype (ai it)) flags)
                                   (ai_protocol (ai it))]) ++
                                 [sys_bind (ret (socket_ans it))]) ++
                                 [sys_listen (ret (socket_ans it)) (Z.shiftl 1 8)] |})
        as (w' & -> & Hl).
      exists w'. split; [reflexivity|]. rewrite Hl. cbn [log].
      now rewrite <- !app_assoc. }
    destruct (IH (fds ++ [ret (socket_ans it)])
                {| errno := errno w;
                   log := ((log w ++ [sys_socket (ai_family (ai it))
                             (Z.lor (ai_socktype (ai it)) flags)
                             (ai_protocol (ai it))]) ++
                           [sys_bind (ret (socket_ans it))]) ++
                          [sys_listen (ret (socket_ans it)) (Z.shiftl 1 8)] |})
      as (w' & -> & Hl).
    exists w'. split; [now rewrite <- app_assoc|]. rewrite Hl. cbn [log].
    now rewrite <- !app_assoc.
Qed.

Lemma listening_elem fd its :
  fd ∈ listening its <->
  exists it, it ∈ its /\ fd = ret (socket_ans it) /\
             0 <= ret (socket_ans it) /\ 0 <= ret (bind_ans it) /\
             0 <= ret (listen_ans it).
Proof.
  unfold listening. rewrite list_elem_of_omap. split.
  - intros (it & Hin & Hsome). exists it. split; [exact Hin|].
    destruct (Z.ltb_spec (ret (socket_ans it)) 0); [discriminate|].
    destruct (Z.ltb_spec (ret (bind_ans it)) 0); [discriminate|].
    destruct (Z.ltb_spec (ret (listen_ans it)) 0); [discriminate|].
    simpl in Hsome. injection Hsome as <-. auto.
  - intros (it & Hin & -> & Hs & Hb & Hl). exists it. split; [exact Hin|].
    apply Z.ltb_ge in Hs, Hb, Hl. now rewrite Hs, Hb, Hl.
Qed.

(** X12: the [PassiveSockets] constructor returns an object exactly when the
    look-up succeeds and some interface can be listened on; the object then
    holds, in the order of the look-up, the descriptor of every interface on
    which [socket], [bind] and [listen] all succeeded, and no other. *)
Theorem PassiveSockets_make_returned (ports : Port * Port) (flags : Z)
    (gai : GaiAnswer) (w : World) :
  ((exists p w', PassiveSockets.make ports flags gai w = (Ok p, w')) <->
   gai_ret gai = 0 /\ listening (gai_list gai) <> []) /\
  (forall p w', PassiveSockets.make ports flags gai w = (Ok p, w') ->
     PassiveSockets.fds_ p = listening (gai_list gai) /\
     PassiveSockets.fds_ p <> [] /\
     forall fd, fd ∈ PassiveSockets.fds_ p <->
       exists it, it ∈ gai_list gai /\ fd = ret (socket_ans it) /\
                  0 <= ret (socket_ans it) /\ 0 <= ret (bind_ans it) /\
                  0 <= ret (listen_ans it)).
Proof.
  assert (Hok : forall p w', PassiveSockets.make ports flags gai w = (Ok p, w') ->
            gai_ret gai = 0 /\ PassiveSockets.fds_ p = listening (gai_list gai) /\
            listening (gai_list gai) <> []).
  { intros p w'. unfold PassiveSockets.make, mbind, M_bind.
    destruct (Z.eq_dec (gai_ret gai) 0) as [E|E].
    - destruct (InterfaceIt_returns None (fst ports) gai w E) as [w1 ->].
      destruct (listen_loop_log flags (gai_list gai) [] w1) as (w2 & -> & _).
      simpl. destruct (bool_decide_reflect (listening (gai_list gai) = []));
        [unfold throw; discriminate|].
      unfold mret, M_ret. intros [= <- <-]. auto.
    - destruct (InterfaceIt_throws None (fst ports) gai w E) as (e & w1 & ->).
      discriminate. }
  split.
  - split.
    + intros (p & w' & H). destruct (Hok p w' H) as (E & _ & Hne). auto.
    + intros [E Hne].
      destruct (PassiveSockets_make_returns ports flags gai w E Hne) as [w' H].
      eauto.
  - intros p w' H. destruct (Hok p w' H) as (_ & -> & Hne).
    split; [reflexivity|]. split; [exact Hne|].
    intros fd. apply listening_elem.
Qed.

Lemma listen_calls_projections flags its :
  length (sockets (concat (listen_calls flags <$> its))) = length its /\
  binds (concat (listen_calls flags <$> its)) = made its /\
  listens (concat (listen_calls flags <$> its)) = (fun fd => (fd, 256)) <$> bound its.
Proof.
  induction its as [|it rest (IHs & IHb & IHl)]; [repeat split|].
  cbn [fmap list_fmap concat]. unfold sockets, binds, listens, made, bound in *.
  rewrite !omap_app, length_app, IHs, IHb, IHl. cbn [omap list_omap].
  unfold listen_calls.
  destruct (ret (socket_ans it) <? 0); [repeat split|].
  destruct (ret (bind_ans it) <? 0); repeat split.
Qed.

(** X13: when the look-up succeeds the [PassiveSockets] constructor calls
    [socket] once for each interface, [bind] on each descriptor that
    [socket] returned and on nothing else, and [listen], with a backlog of
    256, on each descriptor that [bind] accepted and on nothing else, each
    in the order of the interfaces. *)
Theorem PassiveSockets_make_calls (ports : Port * Port) (flags : Z)
    (gai : GaiAnswer) (w : World) :
  gai_ret gai = 0 ->
  exists r w',
    PassiveSockets.make ports flags gai w = (r, w') /\
    length (sockets (log w')) =
      (length (sockets (log w)) + length (gai_list gai))%nat /\
    binds (log w') = binds (log w) ++ made (gai_list gai) /\
    listens (log w') =
      listens (log w) ++ ((fun fd => (fd, 256)) <$> bound (gai_list gai)).
Proof.
  intros E. unfold PassiveSockets.make, InterfaceIt, mbind, M_bind.
  rewrite E. simpl.
  set (w0 := {| errno := _; log := _ |}).
  destruct (listen_loop_log flags (gai_list gai) [] w0) as (w1 & -> & Hl).
  destruct (listen_calls_projections flags (gai_list gai)) as (Hs & Hb & Hli).
  assert (Hlog : length (sockets (log w1)) =
                   (length (sockets (log w)) + length (gai_list gai))%nat /\
                 binds (log w1) = binds (log w) ++ made (gai_list gai) /\
                 listens (log w1) =
                   listens (log w) ++ ((fun fd => (fd, 256)) <$> bound (gai_list gai))).
  { rewrite Hl. unfold w0. cbn [log].
    rewrite <- Hs, <- Hb, <- Hli. unfold sockets, binds, listens.
    rewrite !omap_app, !length_app. cbn [omap list_omap].
    rewrite !app_nil_r. repeat split. simpl. lia. }
  simpl. destruct (bool_decide (listening (gai_list gai) = []));
    eexists _, _; (split; [reflexivity|]); exact Hlog.
Qed.

(** X14: the destructor of [PassiveSockets] closes each descriptor of the
    object once, in order; it shuts none down and throws nothing, whatever
    [close] answers. *)
Theorem PassiveSockets_dtor_calls (p : PassiveSockets.t)
    (close_ans : nat -> Answer) (w : World) :
  exists w',
    PassiveSockets.dtor p close_ans w = (Ok (), w') /\
    log w' = log w ++ (sys_close <$> PassiveSockets.fds_ p) /\
    Store.closed (log w') = Store.closed (log w) ++ PassiveSockets.fds_ p /\
    Store.shut_down (log w') = Store.shut_down (log w).
Proof.
  unfold PassiveSockets.dtor. destruct p as [fds]. simpl.
  assert (H : exists w', PassiveSockets.close_all fds close_ans w = (Ok (), w') /\
                         log w' = log w ++ (sys_close <$> fds)).
  { revert close_ans w. induction fds as [|fd rest IH]; intros close_ans w; simpl.
    - unfold mret, M_ret. rewrite app_nil_r. eauto.
    - unfold mbind, M_bind, syscall. simpl.
      destruct (IH (fun i => close_ans (S i))
                  {| errno := if ret (close_ans 0%nat) <? 0
                              then err (close_ans 0%nat) else errno w;
                     log := log w ++ [sys_close fd] |}) as (w' & -> & Hl).
      exists w'. split; [reflexivity|]. rewrite Hl. simpl.
      now rewrite <- app_assoc. }
  destruct H as (w' & -> & Hl). exists w'. split; [reflexivity|].
  split; [exact Hl|]. rewrite Hl. unfold Store.closed, Store.shut_down.
  rewrite !omap_app. split.
  - f_equal. clear. induction fds as [|fd rest IH]; [reflexivity|].
    simpl. f_equal. exact IH.
  - rewrite <- (app_nil_r (omap _ (log w))) at 2. f_equal.
    clear. induction fds as [|fd rest IH]; [reflexivity|]. simpl. exact IH.
Qed.

End SocketLifetime.

Lemma Socket_accept_returned_witness :
  log (snd (@Socket.accept linux 3 2048 somebody (mkAnswer 0 0) quiet)) =
  log quiet ++ [sys_accept4 3 2048; sys_setsockopt 7].
Proof.
  eapply (proj2 (proj2 (@Socket_accept_returned linux 3 2048 somebody
            (mkAnswer 0 0) quiet _
            {| Socket.fd_ := 7; Socket.addr := [127; 0; 0; 1];
               Socket.addrlen := 16 |} eq_refl))).
  simpl. lia.
Defined.

Lemma Socket_accept_init_failure_witness :
  exists w',
    @Socket.accept linux 3 2048 somebody (mkAnswer (-1) 9) quiet =
    (Throw (errno_error "Socket.setsockopt.TCP_NODELAY" 9), w') /\
    log w' = [sys_accept4 3 2048; sys_setsockopt 7; sys_shutdown 7; sys_close 7].
Proof.
  destruct (@Socket_accept_init_failure linux 3 2048 somebody
              (mkAnswer (-1) 9) quiet)
    as (r & w' & H & Hl & _ & Hthrow & _);
    [simpl; lia | discriminate |].
  exists w'. rewrite H, (Hthrow eq_refl eq_refl). split; [reflexivity | exact Hl].
Defined.

Lemma Socket_dtor_calls_witness :
  exists r w',
    Socket.dtor {| Socket.fd_ := 5; Socket.addr := []; Socket.addrlen := 0 |}
      (mkAnswer (-1) 107) (mkAnswer 0 0) quiet = (r, w') /\
    log w' = [sys_shutdown 5] /\
    r = Terminate.
Proof.
  destruct (Socket_dtor_calls
              {| Socket.fd_ := 5; Socket.addr := []; Socket.addrlen := 0 |}
              (mkAnswer (-1) 107) (mkAnswer 0 0) quiet)
    as (r & w' & H & Hl & _ & Hend).
  - simpl. lia.
  - exists r, w'. split; [exact H|]. split; [exact Hl|].
    apply Hend. left. discriminate.
Defined.

Lemma PassiveSockets_make_calls_witness :
  exists r w',
    @PassiveSockets.make linux (18888, 18888) 0 (mkGaiAnswer 0 0 [busy; free]) quiet =
    (r, w') /\
    binds (log w') = [3; 4] /\ listens (log w') = [(4, 256)].
Proof.
  destruct (@PassiveSockets_make_calls linux (18888, 18888) 0
              (mkGaiAnswer 0 0 [busy; free]) quiet eq_refl)
    as (r & w' & H & _ & Hb & Hl).
  exists r, w'. split; [exact H|]. split; [exact Hb | exact Hl].
Defined.

Lemma PassiveSockets_make_returned_witness :
  exists p w',
    @PassiveSockets.make linux (18888, 18888) 0 (mkGaiAnswer 0 0 [busy; free]) quiet =
    (Ok p, w') /\
    PassiveSockets.fds_ p = [4].
Proof.
  eexists _, _. split; [reflexivity|].
  exact (proj1 (proj2 (@PassiveSockets_make_returned linux (18888, 18888) 0
                         (mkGaiAnswer 0 0 [busy; free]) quiet) _ _ eq_refl)).
Defined.

(** ** Socket objects: what moves and destructions leave alone *)

Section StoreFrame.
Import Store.
Local Open Scope Z_scope.
Implicit Types (h : list (option Socket.t)) (w : World) (s o : Socket.t).

Lemma Socket_eta s :
  {| Socket.fd_ := Socket.fd_ s; Socket.addr := Socket.addr s;
     Socket.addrlen := Socket.addrlen s |} = s.
Proof. now destruct s. Qed.

(** X15: a move makes the target the socket that the source was and leaves
    the source with the descriptor -1 and its address; it changes no other
    object.  A move construction adds its target at the end of the store, a
    move assignment adds nothing, and a socket assigned to itself only
    loses its descriptor. *)
Theorem Store_move_frame :
  (forall other h h', move_ctor other h = Some h' ->
     length h' = S (length h) /\
     live h' (length h) = live h other /\
     live h' other = Socket.set_fd_ (-1) <$> live h other /\
     forall j, j <> other -> j <> length h -> live h' j = live h j) /\
  (forall this other h h', move_assign this other h = Some h' ->
     length h' = length h /\
     (this <> other -> live h' this = live h other) /\
     live h' other = Socket.set_fd_ (-1) <$> live h other /\
     forall j, j <> this -> j <> other -> live h' j = live h j).
Proof.
  split.
  - intros other h h'. unfold move_ctor.
    destruct (live h other) as [o|] eqn:Ho; [|discriminate]. simpl.
    intros [= <-]. pose proof (live_lt _ _ _ Ho) as Hlt.
    split; [unfold write; rewrite length_alter, length_app; simpl; lia|].
    rewrite Socket_eta.
    split; [rewrite live_write, !live_app; repeat case_decide; try lia;
            reflexivity|].
    split; [rewrite live_write, !live_app; repeat case_decide; try lia;
            try congruence; now rewrite Ho|].
    intros j Hjo Hjn. rewrite live_write, !live_app.
    repeat case_decide; try congruence; reflexivity.
  - intros this other h h'. unfold move_assign. intros H.
    destruct (live h this) as [t0|] eqn:Ht; [|discriminate].
    destruct (live h other) as [o|] eqn:Ho; [|discriminate].
    cbn [mbind option_bind] in H.
    match type of H with
    | context [mbind _ (live ?h2 other)] =>
        destruct (live h2 other) as [o2|] eqn:Ho2; [|discriminate]
    end.
    cbn [mbind option_bind] in H.
    match type of H with
    | context [mbind _ (live ?h3 other)] =>
        destruct (live h3 other) as [o3|] eqn:Ho3; [|discriminate]
    end.
    cbn [mbind option_bind] in H. injection H as <-.
    split; [unfold write; now rewrite !length_alter|].
    assert (Hthis : this <> other -> o2 = Socket.set_fd_ (-1) o /\ o3 = o2).
    { intros Hne. rewrite !live_write in Ho2. rewrite !live_write in Ho3.
      repeat case_decide; try congruence.
      rewrite Ho in Ho2, Ho3. simpl in Ho2, Ho3. split; congruence. }
    assert (Hself : this = other ->
              o = t0 /\ o2 = Socket.set_fd_ (-1) o /\ o3 = o2).
    { intros ->. rewrite !live_write in Ho2. rewrite !live_write in Ho3.
      repeat case_decide; try congruence.
      rewrite Ht in Ho. injection Ho as ->.
      rewrite Ht in Ho2, Ho3. simpl in Ho2, Ho3.
      injection Ho2 as <-. injection Ho3 as <-.
      destruct o; auto. }
    split; [|split].
    + intros Hne. destruct (Hthis Hne) as [-> ->].
      rewrite !live_write. repeat case_decide; try congruence;
        rewrite ?Ht; simpl; f_equal; now destruct o.
    + destruct (decide (this = other)) as [Heq|Hne].
      * destruct (Hself Heq) as (-> & -> & ->). subst other.
        rewrite !live_write. repeat case_decide; try congruence;
          rewrite ?Ht; simpl; f_equal; now destruct t0.
      * destruct (Hthis Hne) as [-> ->].
        rewrite !live_write. repeat case_decide; try congruence;
          now rewrite ?Ho.
    + intros j Hjt Hjo. rewrite !live_write.
      repeat case_decide; try congruence; reflexivity.
Qed.

(** X16: the destruction of an object that has been moved from makes no
    system call, whatever the system would answer. *)
Theorem Store_destroy_moved_from (shutdown_ans close_ans : Answer) :
  (forall other h h' w, move_ctor other h = Some h' ->
     step (Destroy other shutdown_ans close_ans) h' w =
     Next (<[other := None]> h') w) /\
  (forall this other h h' w, move_assign this other h = Some h' ->
     step (Destroy other shutdown_ans close_ans) h' w =
     Next (<[other := None]> h') w).
Proof.
  assert (Hneg : forall h' other w, fd_at h' other = Some (-1) ->
            step (Destroy other shutdown_ans close_ans) h' w =
            Next (<[other := None]> h') w).
  { intros h' other w Hfd. unfold fd_at in Hfd. simpl.
    destruct (live h' other) as [s|]; [|discriminate].
    injection Hfd as Hfd. now rewrite dtor_no_descriptor by lia. }
  split.
  - intros other h h' w E. apply Hneg.
    destruct (move_ctor_fd_at _ _ _ E) as (o & _ & Hfd).
    rewrite Hfd. now rewrite decide_True.
  - intros this other h h' w E. apply Hneg.
    destruct (move_assign_fd_at _ _ _ _ E) as (o & _ & Hfd).
    rewrite Hfd. now rewrite decide_True.
Qed.

(** The descriptors held after an operation were held before it, and the
    descriptors it shuts down or closes were held. *)
Lemma step_held op h w :
  match step op h w with
  | Next h' w' =>
      (forall fd, held h' fd -> held h fd) /\
      (forall fd, fd ∈ closed (log w') -> fd ∈ closed (log w) \/ held h fd) /\
      (forall fd, fd ∈ shut_down (log w') -> fd ∈ shut_down (log w) \/ held h fd)
  | Halt w' =>
      (forall fd, fd ∈ closed (log w') -> fd ∈ closed (log w) \/ held h fd) /\
      (forall fd, fd ∈ shut_down (log w') -> fd ∈ shut_down (log w) \/ held h fd)
  end.
Proof.
  assert (Htransfer : forall h' other target fdo,
    fd_at h other = Some fdo ->
    (forall j, fd_at h' j =
       if decide (j = other) then Some (-1)
       else if decide (j = target) then Some fdo else fd_at h j) ->
    forall fd, held h' fd -> held h fd).
  { intros h' other target fdo Ho Hfd fd (j & Hj & Hpos). rewrite Hfd in Hj.
    destruct (decide (j = other)); [injection Hj; lia|].
    destruct (decide (j = target)).
    - exists other. split; [congruence | exact Hpos].
    - exists j. split; assumption. }
  destruct op as [other|this other|obj sa ca]; simpl.
  - destruct (move_ctor other h) as [h'|] eqn:E; [|auto].
    destruct (move_ctor_fd_at _ _ _ E) as (o & Ho & Hfd).
    split; [|auto]. apply (Htransfer h' other (length h) (Socket.fd_ o));
      [unfold fd_at; now rewrite Ho | exact Hfd].
  - destruct (move_assign this other h) as [h'|] eqn:E; [|auto].
    destruct (move_assign_fd_at _ _ _ _ E) as (o & Ho & Hfd).
    split; [|auto]. apply (Htransfer h' other this (Socket.fd_ o));
      [unfold fd_at; now rewrite Ho | exact Hfd].
  - destruct (live h obj) as [s|] eqn:Hobj; [|auto].
    pose proof (live_lt _ _ _ Hobj) as Hlt.
    assert (Hkeep : forall fd, held (<[obj := None]> h) fd -> held h fd).
    { intros fd (j & Hj & Hpos). exists j. split; [|exact Hpos].
      unfold fd_at in *. rewrite live_end in Hj by exact Hlt.
      destruct (decide (obj = j)); [discriminate | exact Hj]. }
    unfold Socket.dtor, noexcept.
    destruct (Z.ltb_spec (Socket.fd_ s) 0) as [Hneg|Hpos].
    { unfold mret, M_ret. auto. }
    assert (Hmine : held h (Socket.fd_ s)).
    { exists obj. unfold fd_at. rewrite Hobj. auto. }
    unfold mbind, M_bind, syscall, SLICK_CHECK_ERRNO. cbn -[closed shut_down].
    assert (Hone : forall l fd,
      (fd ∈ closed (l ++ [sys_shutdown (Socket.fd_ s)]) -> fd ∈ closed l) /\
      (fd ∈ shut_down (l ++ [sys_shutdown (Socket.fd_ s)]) ->
       fd ∈ shut_down l \/ held h fd) /\
      (fd ∈ closed (l ++ [sys_close (Socket.fd_ s)]) ->
       fd ∈ closed l \/ held h fd) /\
      (fd ∈ shut_down (l ++ [sys_close (Socket.fd_ s)]) -> fd ∈ shut_down l)).
    { intros l fd. rewrite !closed_snoc, !shut_down_snoc, !app_nil_r.
      rewrite !elem_of_app, !list_elem_of_singleton.
      repeat split; intros H; try exact H;
        (destruct H as [H| ->]; [now left | now right]). }
    destruct (ret sa =? 0); cbn -[closed shut_down].
    + assert (Hboth :
        (forall fd, fd ∈ closed ((log w ++ [sys_shutdown (Socket.fd_ s)]) ++
                                 [sys_close (Socket.fd_ s)]) ->
                    fd ∈ closed (log w) \/ held h fd) /\
        (forall fd, fd ∈ shut_down ((log w ++ [sys_shutdown (Socket.fd_ s)]) ++
                                    [sys_close (Socket.fd_ s)]) ->
                    fd ∈ shut_down (log w) \/ held h fd)).
      { split; intros fd H.
        - apply Hone in H as [H|H]; [|now right]. apply Hone in H. now left.
        - apply Hone in H. now apply Hone in H. }
      destruct (ret ca =? 0); cbn -[closed shut_down].
      * split; [exact Hkeep | exact Hboth].
      * exact Hboth.
    + split; intros fd H.
      * apply Hone in H. now left.
      * now apply Hone in H.
Qed.

Lemma run_held ops h w fd :
  (fd ∈ closed (log (run ops h w)) -> fd ∈ closed (log w) \/ held h fd) /\
  (fd ∈ shut_down (log (run ops h w)) -> fd ∈ shut_down (log w) \/ held h fd).
Proof.
  revert h w. induction ops as [|op rest IH]; intros h w; simpl; [auto|].
  pose proof (step_held op h w) as Hstep.
  destruct (step op h w) as [h' w'|w'].
  - destruct Hstep as (Hh & Hc & Hs). destruct (IH h' w') as [IHc IHs].
    split; intros H.
    + destruct (IHc H) as [H'|H']; [now apply Hc | right; now apply Hh].
    + destruct (IHs H) as [H'|H']; [now apply Hs | right; now apply Hh].
  - destruct Hstep as [Hc Hs]. split; [apply Hc | apply Hs].
Qed.

(** X17: a program of moves and destructions shuts down and closes only
    descriptors that a live object of the store held at its start: in a log
    that is empty at the start, every descriptor shut down or closed is a
    descriptor, not negative, of one of the objects. *)
Theorem Store_run_closes_held (ops : list Op) h w (fd : Z) :
  log w = [] ->
  (fd ∈ closed (log (run ops h w)) -> held h fd) /\
  (fd ∈ shut_down (log (run ops h w)) -> held h fd).
Proof.
  intros Hlog. destruct (run_held ops h w fd) as [Hc Hs]. rewrite Hlog in Hc, Hs.
  split; intros H; [destruct (Hc H) as [H'|H'] | destruct (Hs H) as [H'|H']];
    try exact H'; inversion H'.
Qed.

(** X18: a move assignment does not release the descriptor of its target.
    When the objects hold distinct descriptors and the target of the
    assignment, which may be the source itself, holds a descriptor that is
    not negative, no object holds that descriptor after the assignment, and
    no program of moves and destructions that follows shuts it down or
    closes it. *)
Theorem Store_move_assign_leaks (this other : nat) h h' w (x : Z)
    (ops : list Op) :
  exclusive h -> fd_at h this = Some x -> 0 <= x ->
  move_assign this other h = Some h' -> log w = [] ->
  ~ held h' x /\
  (x ∉ closed (log (run ops h' w))) /\ (x ∉ shut_down (log (run ops h' w))).
Proof.
  intros Hex Hthis Hpos E Hlog.
  assert (Hnot : ~ held h' x).
  { intros (j & Hj & _).
    destruct (move_assign_fd_at _ _ _ _ E) as (o & Ho & Hfd).
    assert (Hother : fd_at h other = Some (Socket.fd_ o))
      by (unfold fd_at; now rewrite Ho).
    rewrite Hfd in Hj.
    destruct (decide (j = other)) as [->|Hjo]; [injection Hj; lia|].
    destruct (decide (j = this)) as [->|Hjt].
    - injection Hj as Hx. rewrite Hx in Hother.
      apply Hjo. exact (Hex this other x Hthis Hother Hpos).
    - apply Hjt. exact (Hex j this x Hj Hthis Hpos). }
  split; [exact Hnot|].
  destruct (run_held ops h' w x) as [Hc Hs]. rewrite Hlog in Hc, Hs.
  split; intros H; [destruct (Hc H) as [H'|H'] | destruct (Hs H) as [H'|H']];
    try (now apply Hnot); inversion H'.
Qed.

End StoreFrame.

Lemma Store_run_closes_held_witness :
  5 ∈ Store.closed (log (Store.run there_and_back one_socket quiet)) /\
  Store.held one_socket 5.
Proof.
  assert (H : 5 ∈ Store.closed (log (Store.run there_and_back one_socket quiet)))
    by (vm_compute; left).
  split; [exact H|].
  exact (proj1 (Store_run_closes_held there_and_back one_socket quiet 5 eq_refl) H).
Defined.

Lemma Store_move_assign_leaks_witness :
  5 ∉ Store.closed
        (log (Store.run [Store.Destroy 0 (mkAnswer 0 0) (mkAnswer 0 0)]
                (<[0%nat := Some {| Socket.fd_ := -1; Socket.addr := [127; 0; 0; 1];
                                    Socket.addrlen := 16 |}]> one_socket) quiet)).
Proof.
  apply (Store_move_assign_leaks 0 0 one_socket _ quiet 5
           [Store.Destroy 0 (mkAnswer 0 0) (mkAnswer 0 0)]
           one_socket_exclusive eq_refl ltac:(lia) eq_refl eq_refl).
Defined.

Lemma Store_move_frame_witness :
  exists h',
    Store.move_ctor 0 one_socket = Some h' /\
    Store.live h' 1 = Store.live one_socket 0 /\
    Store.fd_at h' 0 = Some (-1).
Proof.
  eexists. split; [reflexivity|].
  destruct (proj1 Store_move_frame 0%nat one_socket _ eq_refl)
    as (_ & Hnew & Hold & _).
  split; [exact Hnew|]. unfold Store.fd_at. now rewrite Hold.
Defined.

Lemma Store_destroy_moved_from_witness :
  exists h',
    Store.move_ctor 0 one_socket = Some h' /\
    Store.step (Store.Destroy 0 (mkAnswer (-1) 9) (mkAnswer (-1) 9)) h' quiet =
    Store.Next (<[0%nat := None]> h') quiet.
Proof.
  eexists. split; [reflexivity|].
  apply (proj1 (Store_destroy_moved_from (mkAnswer (-1) 9) (mkAnswer (-1) 9))
           0%nat one_socket).
  reflexivity.
Defined.
